(** * llm-gen: extraction-and-aggregation pipeline of [src/index.js]

    A shallow embedding of the pipeline that turns a tree of HTML files into
    the corpus artifact ([llm.txt]) and the index artifact ([pages.json]),
    followed by the properties of the specification that concern it.

    JavaScript strings are sequences of UTF-16 code units; they are modelled
    as lists of code units so that [length], [trim], the regular expressions
    of the normaliser and [padStart]/[padEnd] count what the code counts. *)

From Stdlib Require Import String Ascii.
From Stdlib Require Import List NArith ZArith Lia Bool.
From Stdlib Require Import Permutation Sorted DecimalString.
From Stdlib Require DecimalN.
Import ListNotations.

Set Implicit Arguments.
Local Open Scope N_scope.

(** ** JavaScript strings *)

Module JS.

Definition code_unit := N.
Definition jsstr := list code_unit.

  (** An ASCII literal of the source, as code units. *)
Definition lit (s : String.string) : jsstr :=
    map N_of_ascii (String.list_ascii_of_string s).
Arguments lit s%_string.

  (** [s1 === s2] on strings. *)
Fixpoint eqb (a b : jsstr) : bool :=
    match a, b with
    | [], [] => true
    | x :: a', y :: b' => (x =? y) && eqb a' b'
    | _, _ => false
    end.

  (** Truthiness of a string: only the empty string is falsy. *)
Definition truthy (s : jsstr) : bool :=
    match s with [] => false | _ :: _ => true end.

  (** [s.length] *)
Definition len (s : jsstr) : N := N.of_nat (length s).

  (** LineTerminator of ECMA-262: LF, CR, LS, PS. *)
Definition is_line_terminator (c : code_unit) : bool :=
    (c =? 10) || (c =? 13) || (c =? 8232) || (c =? 8233).

  (** The class [\s] of regular expressions, which is also the set removed
      by [String.prototype.trim]: WhiteSpace and LineTerminator. *)
Definition is_space (c : code_unit) : bool :=
    ((9 <=? c) && (c <=? 13)) || (c =? 32) || (c =? 160) || (c =? 5760)
    || ((8192 <=? c) && (c <=? 8202)) || (c =? 8232) || (c =? 8233)
    || (c =? 8239) || (c =? 8287) || (c =? 12288) || (c =? 65279).

Definition SPACE : code_unit := 32.

Fixpoint trimStart (s : jsstr) : jsstr :=
    match s with
    | [] => []
    | c :: r => if is_space c then trimStart r else s
    end.

Definition trimEnd (s : jsstr) : jsstr := rev (trimStart (rev s)).

  (** [s.trim()] *)
Definition trim (s : jsstr) : jsstr := trimEnd (trimStart s).

  (** [s.replace(/\s+/g, ' ')]: every maximal run of whitespace becomes one
      space.  [inrun] tells that the previous code unit was whitespace, so
      the run's space has been emitted already. *)
Fixpoint collapse_from (inrun : bool) (s : jsstr) : jsstr :=
    match s with
    | [] => []
    | c :: r =>
        if is_space c
        then (if inrun then collapse_from true r
              else SPACE :: collapse_from true r)
        else c :: collapse_from false r
    end.

Definition collapseWhitespace (s : jsstr) : jsstr := collapse_from false s.

  (** Does [.*?close] match at the start of [s]?  The dot does not cross a
      line terminator. *)
Fixpoint closes_ahead (close : code_unit) (s : jsstr) : bool :=
    match s with
    | [] => false
    | c :: r =>
        if c =? close then true
        else if is_line_terminator c then false
        else closes_ahead close r
    end.

  (** [s.replace(/open.*?close/g, '')] for one-unit delimiters: the leftmost
      [open] that has a [close] ahead starts a match, which ends at the first
      [close]; matching resumes after it.  [skipping] is true inside a
      match. *)
Fixpoint strip_from (open close : code_unit) (skipping : bool) (s : jsstr)
    : jsstr :=
    match s with
    | [] => []
    | c :: r =>
        if skipping
        then (if c =? close then strip_from open close false r
              else strip_from open close true r)
        else if (c =? open) && closes_ahead close r
             then strip_from open close true r
             else c :: strip_from open close false r
    end.

Definition stripDelimited (open close : code_unit) (s : jsstr) : jsstr :=
    strip_from open close false s.

Definition LBRACKET : code_unit := 91.
Definition RBRACKET : code_unit := 93.
Definition LBRACE : code_unit := 123.
Definition RBRACE : code_unit := 125.

  (** [String(n)] for a non-negative integer. *)
Definition toString (n : N) : jsstr :=
    lit (NilEmpty.string_of_uint (N.to_uint n)).

  (** ['c'.repeat(n)] *)
Definition repeatUnit (c : code_unit) (n : N) : jsstr :=
    repeat c (N.to_nat n).

  (** [s.padEnd(w)] and [s.padStart(w)], padding with spaces. *)
Definition padEnd (s : jsstr) (w : N) : jsstr :=
    s ++ repeatUnit SPACE (w - len s).
Definition padStart (s : jsstr) (w : N) : jsstr :=
    repeatUnit SPACE (w - len s) ++ s.

  (** [Math.max(...xs, x0)] *)
Definition maxOf (xs : list N) (x0 : N) : N := fold_right N.max x0 xs.

  (** [parts.join(sep)] *)
Fixpoint join (sep : jsstr) (parts : list jsstr) : jsstr :=
    match parts with
    | [] => []
    | [p] => p
    | p :: rest => p ++ sep ++ join sep rest
    end.

  (** The default comparison of [Array.prototype.sort] on strings: code
      units compared pairwise, a proper prefix first. *)
Fixpoint leb (a b : jsstr) : bool :=
    match a, b with
    | [], _ => true
    | _ :: _, [] => false
    | x :: a', y :: b' => (x <? y) || ((x =? y) && leb a' b')
    end.

End JS.

Import JS.

(** ** Node's [path] module

    [path.relative(from, to)] on a POSIX host, for the arguments the program
    gives it: absolute paths that are already resolved (the working
    directory, [SRC_DIR] and the resolved file paths).  Both paths are cut
    into their segments, the common leading segments are dropped, and the
    result climbs out of what is left of [from] and descends into what is
    left of [to]. *)

Module Path.

Definition SLASH : code_unit := 47.
Definition DOTDOT : jsstr := lit "..".

Fixpoint split_from (acc : jsstr) (s : jsstr) : list jsstr :=
    match s with
    | [] => match acc with [] => [] | _ :: _ => [rev acc] end
    | c :: r =>
        if c =? SLASH
        then match acc with
             | [] => split_from [] r
             | _ :: _ => rev acc :: split_from [] r
             end
        else split_from (c :: acc) r
    end.

Definition segments (p : jsstr) : list jsstr := split_from [] p.

Fixpoint dropCommon (a b : list jsstr) : list jsstr * list jsstr :=
    match a, b with
    | x :: a', y :: b' => if JS.eqb x y then dropCommon a' b' else (a, b)
    | _, _ => (a, b)
    end.

Definition relativeSegments (from to : jsstr) : list jsstr :=
    let (up, down) := dropCommon (segments from) (segments to) in
    map (fun _ => DOTDOT) up ++ down.

Definition relative (from to : jsstr) : jsstr :=
    join [SLASH] (relativeSegments from to).





End Path.

(** ** The pipeline *)

(** What the host provides to one run and what does not change between two
    runs over the same files: the working directory, the file system, the
    markup library, the digest and the locale. *)
Record Host := {
  cwd : jsstr;
    (** [process.cwd()] *)
  pathExists : jsstr -> bool;
  readFile : jsstr -> jsstr + jsstr;
    (** [fs.readFile(f, 'utf8')]: the content, or the message of the error
        it rejects with *)
  stat : jsstr -> option N;
    (** [fs.stat(f)]: the size, or nothing when it rejects *)
  resolve : jsstr -> jsstr;
    (** [path.resolve(f)] *)
  cheerio : jsstr -> jsstr -> jsstr;
    (** [cheerio h html sel]: [$(sel).text()] once [html] is loaded and the
        noise, hidden and framework nodes are removed *)
  sha256 : jsstr -> jsstr;
  localeCompare : jsstr -> jsstr -> Z;
    (** [a.localeCompare(b)], the collation of the host's locale *)
  toLocaleString : N -> jsstr
    (** [n.toLocaleString()], the number with the locale's grouping *)
}.

(** The part of [argv] the pipeline reads, with [SRC_DIR] resolved. *)
Record Config := {
  SRC_DIR : jsstr;
  concurrency : N
}.

(** The object [extractTextFromHTML] returns; [xr_error] is absent on the
    two successful exits. *)
Record ExtractResult := {
  xr_filePath : jsstr;
  xr_text : jsstr;
  xr_error : option jsstr
}.

(** The object each task of [main] returns; [error] is [null] or a string. *)
Record Extracted := {
  path : jsstr;
  rel : jsstr;
  size : N;
  textLength : N;
  text : jsstr;
  hash : jsstr;
  error : option jsstr
}.

(** An element of [itemsForOutput]. *)
Record Item := {
  it_path : jsstr;
  it_text : jsstr;
  it_size : N;
  it_textLength : N
}.

(** An element of [pagesJson], and the object written to [pages.json]. *)
Record Page := {
  pg_path : jsstr;
  pg_size : N;
  pg_textLength : N;
  pg_hash : jsstr;
  pg_error : option jsstr
}.

Record IndexFile := {
  generatedAt : jsstr;
  source : jsstr;
  pages : list Page
}.

(** How a run ends: [fatal] exits the process, a run that completes has
    written the index object and the chunks of the corpus stream, and
    [Pending] is a run whose [Promise.all] never settles. *)
Inductive Outcome :=
| Fatal (message : jsstr)
| Done (index : IndexFile) (corpus : list jsstr)
| Pending.

Definition NL : jsstr := [10].
Definition QUOTE : code_unit := 34.

(** Box-drawing units of the table and the page emoji of the section
    header (a surrogate pair). *)
Module Box.
Definition H : code_unit := 9552.       (* U+2550 *)
Definition V : jsstr := [9553].         (* U+2551 *)
Definition v : jsstr := [9474].         (* U+2502 *)
Definition TL : jsstr := [9556].
Definition TM : jsstr := [9572].
Definition TR : jsstr := [9559].
Definition ML : jsstr := [9567].
Definition MM : jsstr := [9532].
Definition MR : jsstr := [9570].
Definition BL : jsstr := [9562].
Definition BM : jsstr := [9575].
Definition BR : jsstr := [9565].
Definition PAGE : jsstr := [55357; 56516]. (* U+1F4C4 *)
End Box.

(** *** Helper functions *)

Definition makeFileHeader (relPath : jsstr) : jsstr :=
  let line := repeatUnit Box.H 80 in
  NL ++ line ++ NL ++ lit " " ++ Box.PAGE ++ lit " FILE: " ++ relPath ++ NL
     ++ line ++ NL.

Module headers.
Definition filePath : jsstr := lit "File Path".
Definition size : jsstr := lit "Size".
Definition chars : jsstr := lit "Chars".
End headers.

Definition NO_FILES : jsstr := lit "No files were processed.".

Definition maxPathLength (items : list Item) (srcDir : jsstr) : N :=
  maxOf (map (fun item => len (Path.relative srcDir (it_path item))) items)
        (len headers.filePath).

Definition maxSizeLength (items : list Item) : N :=
  maxOf (map (fun item => len (toString (it_size item))) items)
        (len headers.size).

Definition maxCharsLength (items : list Item) : N :=
  maxOf (map (fun item => len (toString (it_textLength item))) items)
        (len headers.chars).

Definition makeDivider (wPath wSize wChars : N) (left mid1 mid2 right : jsstr)
  : jsstr :=
  left ++ repeatUnit Box.H (wPath + 2) ++
  mid1 ++ repeatUnit Box.H (wSize + 2) ++
  mid2 ++ repeatUnit Box.H (wChars + 2) ++
  right.

(** One line of the table from its three cells, already padded. *)
Definition tableRow (c1 c2 c3 : jsstr) : jsstr :=
  (Box.V ++ lit " " ++ c1 ++ lit " ") ++
  (Box.v ++ lit " " ++ c2 ++ lit " ") ++
  (Box.v ++ lit " " ++ c3 ++ lit " " ++ Box.V).

Definition headerRow (wPath wSize wChars : N) : jsstr :=
  tableRow (padEnd headers.filePath wPath)
           (padStart headers.size wSize)
           (padStart headers.chars wChars).

Definition bodyRow (srcDir : jsstr) (wPath wSize wChars : N) (item : Item)
  : jsstr :=
  let relPath := Path.relative srcDir (it_path item) in
  tableRow (padEnd relPath wPath)
           (padStart (toString (it_size item)) wSize)
           (padStart (toString (it_textLength item)) wChars).

Definition totalCharacters (items : list Item) : N :=
  fold_left (fun sum item => sum + it_textLength item) items 0.

Definition makeTocSection (h : Host) (items : list Item) (srcDir : jsstr)
  : jsstr :=
  match items with
  | [] => NO_FILES
  | _ :: _ =>
      let wPath := maxPathLength items srcDir in
      let wSize := maxSizeLength items in
      let wChars := maxCharsLength items in
      let headerTop := makeDivider wPath wSize wChars Box.TL Box.TM Box.TM Box.TR in
      let headerMid := makeDivider wPath wSize wChars Box.ML Box.MM Box.MM Box.MR in
      let footerBot := makeDivider wPath wSize wChars Box.BL Box.BM Box.BM Box.BR in
      let body := join NL (map (bodyRow srcDir wPath wSize wChars) items) in
      let table :=
        join NL [headerTop; headerRow wPath wSize wChars; headerMid; body;
                 footerBot] in
      let summary :=
        join NL [NL ++ lit "Total files: " ++ toString (N.of_nat (length items));
                 lit "Total characters: "
                   ++ toLocaleString h (totalCharacters items);
                 []] in
      table ++ summary
  end.

(** *** Core processing functions *)

(** [Array.from(new Set(l))]: the first occurrence of each element, in
    order. *)
Fixpoint dedupe_from (seen l : list jsstr) : list jsstr :=
  match l with
  | [] => []
  | x :: r =>
      if existsb (JS.eqb x) seen then dedupe_from seen r
      else x :: dedupe_from (x :: seen) r
  end.

Definition dedupe (l : list jsstr) : list jsstr := dedupe_from [] l.

(** [Array.prototype.sort] with a comparator, which is stable: an element
    goes before the first one it does not compare greater than. *)
Section Sort.
Variable A : Type.
Variable cmp : A -> A -> Z.

Fixpoint insertSorted (x : A) (l : list A) : list A :=
    match l with
    | [] => [x]
    | y :: r => if (cmp x y <=? 0)%Z then x :: l else y :: insertSorted x r
    end.

Definition sortWith (l : list A) : list A := fold_right insertSorted [] l.
End Sort.

(** The comparator [sort()] uses without an argument. *)
Definition defaultCompare (a b : jsstr) : Z :=
  if JS.leb a b then (if JS.leb b a then 0 else -1)%Z else 1%Z.

(** [listHtmlFiles], from what [glob] returned for the pattern. *)
Definition listHtmlFiles (h : Host) (globbed : list jsstr) : list jsstr :=
  let unique := dedupe (map (resolve h) globbed) in
  sortWith defaultCompare unique.

Definition selectors : list jsstr :=
  [ lit "main"; lit "article";
    lit "[role=" ++ [QUOTE] ++ lit "main" ++ [QUOTE] ++ lit "]";
    lit ".main-content"; lit ".content"; lit ".prose"; lit ".container";
    lit "body" ].

(** The test of the selector loop: [t && t.trim().length > 50]. *)
Definition qualifies (t : jsstr) : bool :=
  truthy t && (50 <? len (trim t)).

(** The selector loop: the text of the first selector that qualifies, the
    initial [''] when the loop ends without a [break]. *)
Fixpoint selectLoop (doc : jsstr -> jsstr) (sels : list jsstr) : jsstr :=
  match sels with
  | [] => []
  | sel :: rest =>
      let t := doc sel in
      if qualifies t then t else selectLoop doc rest
  end.

Definition selectText (doc : jsstr -> jsstr) : jsstr :=
  let text := selectLoop doc selectors in
  if truthy text then text
  else (let b := doc (lit "body") in if truthy b then b else []).

(** The sanitisation chain of the extractor. *)
Definition normalize (text : jsstr) : jsstr :=
  trim (stripDelimited LBRACE RBRACE
          (stripDelimited LBRACKET RBRACKET (collapseWhitespace text))).

(** [!html || html.trim().length === 0] *)
Definition blank (html : jsstr) : bool :=
  negb (truthy html) || (len (trim html) =? 0).

Definition extractTextFromHTML (h : Host) (filePath : jsstr) : ExtractResult :=
  match readFile h filePath with
  | inl html =>
      if blank html
      then {| xr_filePath := filePath; xr_text := []; xr_error := None |}
      else {| xr_filePath := filePath;
              xr_text := normalize (selectText (cheerio h html));
              xr_error := None |}
  | inr message =>
      {| xr_filePath := filePath; xr_text := []; xr_error := Some message |}
  end.

(** [x || null] for an optional string. *)
Definition orNull (x : option jsstr) : option jsstr :=
  match x with
  | Some s => if truthy s then Some s else None
  | None => None
  end.

(** [!e.error] *)
Definition noError (e : Extracted) : bool :=
  match error e with
  | Some s => negb (truthy s)
  | None => true
  end.

(** The body of one task of [main]. *)
Definition processFile (h : Host) (f : jsstr) : Extracted :=
  let res := extractTextFromHTML h f in
  let statSize := match stat h f with Some s => s | None => 0 end in
  {| path := f;
     rel := Path.relative (cwd h) f;
     size := statSize;
     textLength := len (xr_text res);
     text := xr_text res;
     hash := sha256 h (xr_text res);
     error := orNull (xr_error res) |}.

(** [Promise.all(tasks)]: every task that settles stores its value in the
    slot of its own index; the promise is fulfilled with the slots, in task
    order, once all are filled.  [order] lists the task indices in the order
    in which the tasks complete. *)
Fixpoint fillSlot (A : Type) (i : nat) (x : A) (slots : list (option A))
  : list (option A) :=
  match slots, i with
  | [], _ => []
  | _ :: r, O => Some x :: r
  | s :: r, S j => s :: fillSlot j x r
  end.

Definition settle (A : Type) (values : list A) (slots : list (option A))
  (i : nat) : list (option A) :=
  match nth_error values i with
  | Some x => fillSlot i x slots
  | None => slots
  end.

Fixpoint allFilled (A : Type) (slots : list (option A)) : option (list A) :=
  match slots with
  | [] => Some []
  | None :: _ => None
  | Some x :: r =>
      match allFilled r with Some xs => Some (x :: xs) | None => None end
  end.

Definition promiseAll (A : Type) (values : list A) (order : list nat)
  : option (list A) :=
  allFilled (fold_left (settle values) order
                       (repeat None (length values))).

(** The Executor: one task per file behind the limiter, awaited together. *)
Definition runTasks (h : Host) (files : list jsstr) (order : list nat)
  : option (list Extracted) :=
  promiseAll (map (processFile h) files) order.

(** The Aggregator: the sort by [rel] and the filter. *)
Definition sortExtracted (h : Host) (extracted : list Extracted)
  : list Extracted :=
  sortWith (fun a b => localeCompare h (rel a) (rel b)) extracted.

Definition successfulExtractions (sorted : list Extracted) : list Extracted :=
  filter noError sorted.

Definition toItem (e : Extracted) : Item :=
  {| it_path := path e; it_text := text e; it_size := size e;
     it_textLength := textLength e |}.

Definition toPage (e : Extracted) : Page :=
  {| pg_path := rel e; pg_size := size e; pg_textLength := textLength e;
     pg_hash := hash e; pg_error := error e |}.

Definition NO_TEXT : jsstr := lit "[No extractable text]".

(** The section of one item: the two chunks the loop writes. *)
Definition sectionChunks (h : Host) (it : Item) : list jsstr :=
  let rel := Path.relative (cwd h) (it_path it) in
  [ makeFileHeader rel ++ NL;
    if truthy (it_text it) && (0 <? len (it_text it))
    then it_text it ++ NL ++ NL
    else NO_TEXT ++ NL ++ NL ].

(** [generateLLMTextStream]: the chunks written to the stream, in order;
    [now] is the reading of the clock. *)
Definition generateLLMTextStream (h : Host) (now : jsstr) (items : list Item)
  (srcDir : jsstr) : list jsstr :=
  [ lit "Generated: " ++ now ++ NL;
    lit "Source directory: " ++ srcDir ++ NL;
    lit "Files processed: " ++ toString (N.of_nat (length items)) ++ NL ++ NL;
    makeTocSection h items srcDir ++ NL ]
  ++ flat_map (sectionChunks h) items.

(** [main], from what [glob] returned, the completion order of the tasks and
    the two readings of the clock. *)
Definition main (h : Host) (cfg : Config) (globbed : list jsstr)
  (order : list nat) (nowIndex nowCorpus : jsstr) : Outcome :=
  if negb (pathExists h (SRC_DIR cfg))
  then Fatal (lit "Source directory does not exist: " ++ SRC_DIR cfg)
  else
    let files := listHtmlFiles h globbed in
    match files with
    | [] => Fatal (lit "No HTML files found.")
    | _ :: _ =>
        if concurrency cfg =? 0
        then Fatal (lit "Unhandled error: Expected `concurrency` to be a number from 1 and up")
        else
          match runTasks h files order with
          | None => Pending
          | Some extracted =>
              let sorted := sortExtracted h extracted in
              let successful := successfulExtractions sorted in
              let itemsForOutput := map toItem successful in
              let pagesJson := map toPage successful in
              Done {| generatedAt := nowIndex;
                      source := SRC_DIR cfg;
                      pages := pagesJson |}
                   (generateLLMTextStream h nowCorpus itemsForOutput
                                          (SRC_DIR cfg))
          end
    end.

(** ** Sample hosts

    Small concrete hosts on which the definitions are evaluated.  The markup
    library, the digest and the number format are stand-ins: the properties
    below never depend on what they compute. *)

Module Sample.

Definition a_html : jsstr := lit "/site/a.html".
Definition b_html : jsstr := lit "/site/b.html".
Definition B_html : jsstr := lit "/site/B.html".
Definition blank_html : jsstr := lit "/site/blank.html".

Definition helloText : jsstr :=
    lit "Hello world, this is a sufficiently long piece of text.".
Definition helloMarkup : jsstr :=
    lit "<body><main>" ++ helloText ++ lit "</main></body>".

  (** The text of [main] and of [body] is the sentence, nothing else
      matches. *)
Definition helloDoc (html sel : jsstr) : jsstr :=
    if JS.eqb sel (lit "main") || JS.eqb sel (lit "body")
    then helloText else [].

Definition denied : jsstr :=
    lit "EACCES: permission denied, open '/site/b.html'".
Definition missing : jsstr := lit "ENOENT: no such file or directory".

  (** [a.html] and [B.html] are readable, [blank.html] holds two spaces and
      a line feed; [b.html] exists, has 120 bytes and cannot be read. *)
Definition host : Host :=
    {| cwd := lit "/site";
       pathExists := fun _ => true;
       readFile := fun f =>
         if JS.eqb f a_html then inl helloMarkup
         else if JS.eqb f B_html then inl helloMarkup
         else if JS.eqb f blank_html then inl [SPACE; SPACE; 10]
         else if JS.eqb f b_html then inr denied
         else inr missing;
       stat := fun f =>
         if JS.eqb f a_html then Some 81
         else if JS.eqb f B_html then Some 81
         else if JS.eqb f blank_html then Some 3
         else if JS.eqb f b_html then Some 120
         else None;
       resolve := fun f => f;
       cheerio := helloDoc;
       sha256 := fun s => lit "sha256:" ++ s;
       localeCompare := defaultCompare;
       toLocaleString := toString |}.

Definition config : Config :=
    {| SRC_DIR := lit "/site"; concurrency := 10 |}.

  (** A collation that compares letters without their case first, the way
      the collations of [Intl] do. *)
Definition foldCase (c : code_unit) : code_unit :=
    if (65 <=? c) && (c <=? 90) then c + 32 else c.

Definition caseBlindCompare (a b : jsstr) : Z :=
    defaultCompare (map foldCase a) (map foldCase b).

Definition hostCaseBlind : Host :=
    {| cwd := cwd host;
       pathExists := pathExists host;
       readFile := readFile host;
       stat := stat host;
       resolve := resolve host;
       cheerio := cheerio host;
       sha256 := sha256 host;
       localeCompare := caseBlindCompare;
       toLocaleString := toLocaleString host |}.



End Sample.

(** What the run of the sample host over [a.html] and [b.html] writes, with
    the clock readings [T1] and [T2]. *)
Module SampleRun.

Definition index : IndexFile :=
  {| generatedAt := lit "T1"; source := lit "/site";
     pages := [toPage (processFile Sample.host Sample.a_html)] |}.

Definition corpus : list jsstr :=
  generateLLMTextStream Sample.host (lit "T2")
    [toItem (processFile Sample.host Sample.a_html)] (lit "/site").

(** A host on which no file can be read. *)
Definition hostUnreadable : Host :=
  {| cwd := cwd Sample.host;
     pathExists := pathExists Sample.host;
     readFile := fun _ => inr Sample.denied;
     stat := stat Sample.host;
     resolve := resolve Sample.host;
     cheerio := cheerio Sample.host;
     sha256 := sha256 Sample.host;
     localeCompare := localeCompare Sample.host;
     toLocaleString := toLocaleString Sample.host |}.

End SampleRun.

(** ** The report page

    The part of [makeHtmlUIContent] that depends on the items: one section
    per item, numbered from 0, joined without a separator.  The page around
    them is a fixed template that also prints the source directory and the
    local time. *)

Definition LESS_THAN : code_unit := 60.
Definition BACKSLASH : code_unit := 92.

(** [s.replace(/</g, '&lt;')] *)
Definition escapeLessThan (s : jsstr) : jsstr :=
  flat_map (fun c => if c =? LESS_THAN then lit "&lt;" else [c]) s.

(** [s.replace(/\\/g, '/')] *)
Definition forwardSlashes (s : jsstr) : jsstr :=
  map (fun c => if c =? BACKSLASH then Path.SLASH else c) s.

(** [(it.text || '[No extractable text]').slice(0, 2000).replace(/</g, '&lt;')] *)
Definition uiPreview (it : Item) : jsstr :=
  escapeLessThan
    (firstn 2000 (if truthy (it_text it) then it_text it else NO_TEXT)).

Definition uiRel (h : Host) (it : Item) : jsstr :=
  forwardSlashes (Path.relative (cwd h) (it_path it)).

Definition safeId (i : N) : jsstr := lit "file-" ++ toString i.

Definition quoted (s : jsstr) : jsstr := [QUOTE] ++ s ++ [QUOTE].

(** The template of one item. *)
Definition uiSection (h : Host) (i : N) (it : Item) : jsstr :=
  let rel := uiRel h it in
  NL ++ lit "<section class=" ++ quoted (lit "file") ++ lit " data-file="
     ++ quoted rel ++ lit ">" ++ NL
  ++ lit "  <h3><button aria-expanded=" ++ quoted (lit "false")
     ++ lit " class=" ++ quoted (lit "toggle") ++ lit " data-target="
     ++ quoted (lit "#" ++ safeId i) ++ lit ">" ++ rel
     ++ lit "</button></h3>" ++ NL
  ++ lit "  <div id=" ++ quoted (safeId i) ++ lit " class="
     ++ quoted (lit "content") ++ lit " hidden>" ++ NL
  ++ lit "    <pre>" ++ uiPreview it ++ lit "</pre>" ++ NL
  ++ lit "    <button class=" ++ quoted (lit "show-full")
     ++ lit ">Show Full Text</button>" ++ NL
  ++ lit "  </div>" ++ NL
  ++ lit "</section>" ++ NL.

Fixpoint itemsHtmlFrom (h : Host) (i : N) (items : list Item) : jsstr :=
  match items with
  | [] => []
  | it :: rest => uiSection h i it ++ itemsHtmlFrom h (i + 1) rest
  end.

Definition itemsHtml (h : Host) (items : list Item) : jsstr :=
  itemsHtmlFrom h 0 items.

(** ** Predicates of the specification *)

(** The only whitespace left in [s] is the plain space. *)
Definition plainSpaces (s : jsstr) : Prop :=
  Forall (fun c => is_space c = true -> c = SPACE) s.

(** No two spaces in a row. *)
Definition noSpaceRun (s : jsstr) : Prop :=
  forall l1 l2, s <> l1 ++ SPACE :: SPACE :: l2.

(** No [open] with a [close] somewhere after it. *)
Definition noFragment (open close : code_unit) (s : jsstr) : Prop :=
  forall l1 l2, s = l1 ++ open :: l2 -> ~ In close l2.

(** Neither end of [s] is whitespace. *)
Definition trimmed (s : jsstr) : Prop :=
  (forall c r, s = c :: r -> is_space c = false) /\
  (forall r c, s = r ++ [c] -> is_space c = false).

(** The code units that are not whitespace, in order. *)
Definition ink (s : jsstr) : jsstr :=
  filter (fun c => negb (is_space c)) s.

(** [m] is the greatest element of [xs]. *)
Definition greatestOf (m : N) (xs : list N) : Prop :=
  In m xs /\ Forall (fun x => x <= m) xs.

(** Every filled slot of [Promise.all] holds the value of the task of its
    index. *)
Definition slotsAgree (A : Type) (values : list A) (slots : list (option A))
  : Prop :=
  length slots = length values /\
  forall j x, nth_error slots j = Some (Some x) -> nth_error values j = Some x.

(** A comparator that orders: any two elements compare one way or the other,
    and transitively.  [Array.prototype.sort] asks it of its argument. *)
Definition consistentComparator (A : Type) (cmp : A -> A -> Z) : Prop :=
  (forall a b, (cmp a b <= 0)%Z \/ (cmp b a <= 0)%Z) /\
  (forall a b c, (cmp a b <= 0)%Z -> (cmp b c <= 0)%Z -> (cmp a c <= 0)%Z).

(** Each element is in order with every later one. *)
Definition sortedBy (A : Type) (cmp : A -> A -> Z) (l : list A) : Prop :=
  StronglySorted (fun a b => (cmp a b <= 0)%Z) l.


(** [s] is empty or begins with a code unit that is not whitespace: a
    whitespace run placed before [s] ends where [s] begins. *)
Definition runEnds (s : jsstr) : bool :=
  match s with
  | [] => true
  | c :: _ => negb (is_space c)
  end.

(** * Properties *)

(** ** Strings *)

Lemma eqb_eq (a b : jsstr) : JS.eqb a b = true <-> a = b.
Proof.
  revert b; induction a as [|x a IH]; intros [|y b]; simpl; split;
    try congruence; try reflexivity.
  - intros H. apply andb_true_iff in H as [Hx Hab].
    apply N.eqb_eq in Hx. apply IH in Hab. congruence.
  - intros H. injection H as -> ->. rewrite N.eqb_refl. simpl.
    now apply IH.
Qed.

Lemma eqb_refl (a : jsstr) : JS.eqb a a = true.
Proof. now apply eqb_eq. Qed.

Lemma eqb_neq (a b : jsstr) : JS.eqb a b = false <-> a <> b.
Proof.
  rewrite <- eqb_eq. destruct (JS.eqb a b); split; congruence.
Qed.

Lemma line_terminator_is_space (c : code_unit) :
  is_line_terminator c = true -> is_space c = true.
Proof.
  unfold is_line_terminator, is_space. intros H.
  repeat (apply orb_true_iff in H as [H|H]);
    apply N.eqb_eq in H; subst c; reflexivity.
Qed.

(** *** [trim] *)

Lemma trimStart_suffix (s : jsstr) :
  exists p, s = p ++ trimStart s /\ forallb is_space p = true.
Proof.
  induction s as [|c r [p [IH1 IH2]]]; simpl.
  - exists []. auto.
  - destruct (is_space c) eqn:E.
    + exists (c :: p). simpl. rewrite E, IH2. split; [congruence|reflexivity].
    + exists []. auto.
Qed.

Lemma trimStart_head (s : jsstr) c r :
  trimStart s = c :: r -> is_space c = false.
Proof.
  induction s as [|x s IH]; simpl; [discriminate|].
  destruct (is_space x) eqn:E; [exact IH|].
  intros H. injection H as -> _. exact E.
Qed.

Lemma trimStart_nil (s : jsstr) :
  trimStart s = [] <-> forallb is_space s = true.
Proof.
  induction s as [|x s IH]; simpl; [tauto|].
  destruct (is_space x); simpl; [exact IH|]. split; discriminate.
Qed.

Lemma trimEnd_prefix (s : jsstr) :
  exists q, s = trimEnd s ++ q /\ forallb is_space q = true.
Proof.
  unfold trimEnd. destruct (trimStart_suffix (rev s)) as [p [H1 H2]].
  exists (rev p). split.
  - rewrite <- rev_app_distr, <- H1. now rewrite rev_involutive.
  - rewrite forallb_forall in *. intros x Hx. apply H2.
    now apply in_rev.
Qed.

Lemma trimEnd_last (s : jsstr) r c :
  trimEnd s = r ++ [c] -> is_space c = false.
Proof.
  unfold trimEnd. intros H.
  apply (f_equal (@rev _)) in H. rewrite rev_involutive, rev_app_distr in H.
  simpl in H. eapply trimStart_head; eauto.
Qed.

Lemma forallb_rev (f : code_unit -> bool) (s : jsstr) :
  forallb f (rev s) = forallb f s.
Proof.
  induction s as [|x s IH]; simpl; [reflexivity|].
  rewrite forallb_app, IH. simpl. rewrite andb_true_r. apply andb_comm.
Qed.

Lemma trimEnd_nil (s : jsstr) :
  trimEnd s = [] <-> forallb is_space s = true.
Proof.
  unfold trimEnd. rewrite <- forallb_rev, <- trimStart_nil.
  split; intros H.
  - apply (f_equal (@rev _)) in H. now rewrite rev_involutive in H.
  - now rewrite H.
Qed.

Lemma trim_head (s : jsstr) c r : trim s = c :: r -> is_space c = false.
Proof.
  unfold trim. intros H.
  destruct (trimEnd_prefix (trimStart s)) as [q [Hq _]].
  rewrite H in Hq. simpl in Hq. eapply trimStart_head; eauto.
Qed.

Lemma trim_last (s : jsstr) r c : trim s = r ++ [c] -> is_space c = false.
Proof. unfold trim. apply trimEnd_last. Qed.

Lemma trim_nil (s : jsstr) : trim s = [] <-> forallb is_space s = true.
Proof.
  unfold trim. rewrite trimEnd_nil. split; intros H.
  - destruct (trimStart s) as [|c r] eqn:E.
    + now apply trimStart_nil.
    + apply trimStart_head in E. simpl in H. now rewrite E in H.
  - destruct (trimStart_suffix s) as [p [Hp _]].
    rewrite Hp, forallb_app in H. now apply andb_true_iff in H.
Qed.

Lemma trim_infix (s : jsstr) : exists p q, s = p ++ trim s ++ q.
Proof.
  destruct (trimStart_suffix s) as [p [Hp _]].
  destruct (trimEnd_prefix (trimStart s)) as [q [Hq _]].
  exists p, q. unfold trim. now rewrite <- Hq.
Qed.

Lemma blank_spec (html : jsstr) :
  blank html = true <-> forallb is_space html = true.
Proof.
  unfold blank, len. rewrite <- trim_nil. split.
  - intros H. apply orb_true_iff in H as [H|H].
    + destruct html; [reflexivity|discriminate].
    + apply N.eqb_eq in H. destruct (trim html); [reflexivity|discriminate].
  - intros H. rewrite H. simpl. apply orb_true_r.
Qed.

(** *** Whitespace runs *)

Lemma collapse_from_plainSpaces (b : bool) (s : jsstr) :
  plainSpaces (collapse_from b s).
Proof.
  revert b; induction s as [|c r IH]; intros b; simpl.
  - constructor.
  - destruct (is_space c) eqn:E.
    + destruct b; [apply IH|]. constructor; [reflexivity|apply IH].
    + constructor; [congruence|apply IH].
Qed.

Lemma collapse_from_runs (b : bool) (s : jsstr) :
  noSpaceRun (collapse_from b s) /\
  (b = true -> forall r, collapse_from b s <> SPACE :: r).
Proof.
  revert b; induction s as [|c r IH]; intros b; simpl.
  - split; [intros [|? ?] ?; discriminate|discriminate].
  - destruct (is_space c) eqn:E.
    + destruct b.
      * apply IH.
      * split; [|discriminate].
        intros [|x l1] l2 H; simpl in H; injection H as H.
        -- now apply (proj2 (IH true) eq_refl l2).
        -- now apply (proj1 (IH true) l1 l2).
    + split.
      * intros [|x l1] l2 H; simpl in H; injection H as Hc H.
        -- subst c. discriminate E.
        -- now apply (proj1 (IH false) l1 l2).
      * intros _ r' H. injection H as Hc _. subst c. discriminate E.
Qed.

Lemma collapse_from_ink (b : bool) (s : jsstr) :
  ink (collapse_from b s) = ink s.
Proof.
  revert b; induction s as [|c r IH]; intros b; simpl; [reflexivity|].
  destruct (is_space c) eqn:E; simpl.
  - destruct b; simpl; apply IH.
  - rewrite E. simpl. f_equal. apply IH.
Qed.

Lemma plainSpaces_no_line_terminator (s : jsstr) :
  plainSpaces s -> forallb (fun c => negb (is_line_terminator c)) s = true.
Proof.
  unfold plainSpaces. rewrite Forall_forall, forallb_forall.
  intros H c Hc. destruct (is_line_terminator c) eqn:E; [|reflexivity].
  rewrite (H c Hc (line_terminator_is_space c E)) in E. discriminate E.
Qed.

(** *** Delimited fragments *)

Lemma strip_from_In (o c : code_unit) (m : bool) (s : jsstr) x :
  In x (strip_from o c m s) -> In x s.
Proof.
  revert m; induction s as [|y r IH]; intros m; simpl; [tauto|].
  destruct m.
  - destruct (y =? c); intros H; right; eapply IH; eauto.
  - destruct ((y =? o) && closes_ahead c r).
    + intros H; right; eapply IH; eauto.
    + intros [H|H]; [now left|right; eapply IH; eauto].
Qed.

Lemma closes_ahead_false (c : code_unit) (s : jsstr) :
  forallb (fun x => negb (is_line_terminator x)) s = true ->
  closes_ahead c s = false -> ~ In c s.
Proof.
  induction s as [|y r IH]; simpl; [tauto|].
  intros H. apply andb_true_iff in H as [Hy Hr].
  destruct (y =? c) eqn:E; [discriminate|].
  apply negb_true_iff in Hy. rewrite Hy. intros Hc [->|Hin].
  - now rewrite N.eqb_refl in E.
  - now apply IH.
Qed.

Lemma strip_from_noFragment (o c : code_unit) (m : bool) (s : jsstr) :
  forallb (fun x => negb (is_line_terminator x)) s = true ->
  noFragment o c (strip_from o c m s).
Proof.
  revert m; induction s as [|y r IH]; intros m Hlt; simpl.
  - intros [|? ?] ? ?; discriminate.
  - simpl in Hlt. apply andb_true_iff in Hlt as [Hy Hr].
    destruct m.
    + destruct (y =? c); now apply IH.
    + destruct ((y =? o) && closes_ahead c r) eqn:E; [now apply IH|].
      intros [|x l1] l2 H; simpl in H; injection H as Hx H.
      * subst y l2. rewrite N.eqb_refl in E. simpl in E.
        intros Hin. apply strip_from_In in Hin.
        now apply (closes_ahead_false c r).
      * now apply (IH false Hr l1 l2).
Qed.

(** A fragment-free string stays so when code units are removed. *)
Lemma strip_from_keeps_noFragment (o c o' c' : code_unit) (m : bool)
  (s : jsstr) :
  noFragment o' c' s -> noFragment o' c' (strip_from o c m s).
Proof.
  revert m; induction s as [|y r IH]; intros m Hs; simpl.
  - intros [|? ?] ? ?; discriminate.
  - assert (Hr : noFragment o' c' r).
    { intros l1 l2 H. apply (Hs (y :: l1) l2). simpl. now rewrite H. }
    destruct m.
    + destruct (y =? c); now apply IH.
    + destruct ((y =? o) && closes_ahead c r); [now apply IH|].
      intros [|x l1] l2 H; simpl in H; injection H as Hx H.
      * subst y l2. intros Hin. apply strip_from_In in Hin.
        now apply (Hs [] r eq_refl).
      * now apply (IH false Hr l1 l2).
Qed.

Lemma infix_keeps_noFragment (o c : code_unit) (p s q : jsstr) :
  noFragment o c (p ++ s ++ q) -> noFragment o c s.
Proof.
  intros H l1 l2 Hs Hin. subst s.
  apply (H (p ++ l1) (l2 ++ q)).
  - now rewrite <- !app_assoc.
  - apply in_or_app. now left.
Qed.

Lemma strip_from_plainSpaces (o c : code_unit) (m : bool) (s : jsstr) :
  plainSpaces s -> plainSpaces (strip_from o c m s).
Proof.
  unfold plainSpaces. rewrite !Forall_forall. intros H x Hx.
  apply H. eapply strip_from_In; eauto.
Qed.

Lemma trim_plainSpaces (s : jsstr) : plainSpaces s -> plainSpaces (trim s).
Proof.
  unfold plainSpaces. rewrite !Forall_forall. intros H x Hx.
  destruct (trim_infix s) as [p [q Hpq]].
  apply H. rewrite Hpq. apply in_or_app. right. apply in_or_app. now left.
Qed.

Lemma trim_trimmed (s : jsstr) : trimmed (trim s).
Proof.
  split; intros; [eapply trim_head|eapply trim_last]; eauto.
Qed.

Lemma strip_from_id (o c : code_unit) (s : jsstr) :
  ~ In o s -> strip_from o c false s = s.
Proof.
  induction s as [|y r IH]; simpl; [reflexivity|].
  intros H. destruct (y =? o) eqn:E.
  - apply N.eqb_eq in E. exfalso. apply H. now left.
  - simpl. f_equal. apply IH. intros Hin. apply H. now right.
Qed.

Lemma normalize_shape (text : jsstr) :
  plainSpaces (normalize text) /\ trimmed (normalize text) /\
  noFragment LBRACKET RBRACKET (normalize text) /\
  noFragment LBRACE RBRACE (normalize text).
Proof.
  unfold normalize, stripDelimited, collapseWhitespace.
  pose proof (collapse_from_plainSpaces false text) as Hc.
  set (c := collapse_from false text) in *.
  pose proof (strip_from_plainSpaces LBRACKET RBRACKET false Hc) as Hb.
  set (b := strip_from LBRACKET RBRACKET false c) in *.
  pose proof (strip_from_plainSpaces LBRACE RBRACE false Hb) as Hk.
  set (k := strip_from LBRACE RBRACE false b) in *.
  destruct (trim_infix k) as [p [q Hpq]].
  repeat split.
  - now apply trim_plainSpaces.
  - eapply trim_head; eauto.
  - eapply trim_last; eauto.
  - apply (@infix_keeps_noFragment _ _ p (trim k) q). rewrite <- Hpq.
    apply strip_from_keeps_noFragment.
    apply strip_from_noFragment.
    now apply plainSpaces_no_line_terminator.
  - apply (@infix_keeps_noFragment _ _ p (trim k) q). rewrite <- Hpq.
    apply strip_from_noFragment.
    now apply plainSpaces_no_line_terminator.
Qed.

(** What the three stages keep and what they put. *)

Lemma collapse_word (word rest : jsstr) :
  forallb (fun c => negb (is_space c)) word = true ->
  collapseWhitespace (word ++ rest) = word ++ collapseWhitespace rest.
Proof.
  unfold collapseWhitespace.
  induction word as [|c word IH]; simpl; [reflexivity|].
  intros H. apply andb_true_iff in H as [Hc Hw].
  apply negb_true_iff in Hc. rewrite Hc. f_equal. now apply IH.
Qed.

Lemma collapse_from_run_tail (run rest : jsstr) :
  forallb is_space run = true ->
  runEnds rest = true ->
  collapse_from true (run ++ rest) = collapse_from false rest.
Proof.
  intros Hrun Hrest. induction run as [|c run IH]; simpl.
  - destruct rest as [|c r]; [reflexivity|]. simpl in Hrest.
    apply negb_true_iff in Hrest. simpl. now rewrite Hrest.
  - simpl in Hrun. apply andb_true_iff in Hrun as [Hc Hr].
    rewrite Hc. now apply IH.
Qed.

Lemma collapse_run (run rest : jsstr) :
  run <> [] ->
  forallb is_space run = true ->
  runEnds rest = true ->
  collapseWhitespace (run ++ rest) = SPACE :: collapseWhitespace rest.
Proof.
  unfold collapseWhitespace. intros Hne Hrun Hrest.
  destruct run as [|c run]; [congruence|].
  simpl in Hrun. apply andb_true_iff in Hrun as [Hc Hr].
  simpl. rewrite Hc. f_equal. now apply collapse_from_run_tail.
Qed.

Lemma closes_ahead_reached (c : code_unit) (inside rest : jsstr) :
  forallb (fun x => negb (is_line_terminator x)) inside = true ->
  closes_ahead c (inside ++ c :: rest) = true.
Proof.
  induction inside as [|y inside IH]; simpl.
  - now rewrite N.eqb_refl.
  - intros H. apply andb_true_iff in H as [Hy Hm].
    destruct (y =? c); [reflexivity|].
    apply negb_true_iff in Hy. rewrite Hy. now apply IH.
Qed.

Lemma strip_to_close (o c : code_unit) (inside rest : jsstr) :
  ~ In c inside ->
  strip_from o c true (inside ++ c :: rest) = strip_from o c false rest.
Proof.
  induction inside as [|y inside IH]; simpl; intros H.
  - now rewrite N.eqb_refl.
  - destruct (y =? c) eqn:E.
    + apply N.eqb_eq in E. exfalso. apply H. now left.
    + apply IH. intros Hin. apply H. now right.
Qed.

Lemma strip_fragment (o c : code_unit) (before inside after : jsstr) :
  ~ In o before ->
  ~ In c inside ->
  forallb (fun x => negb (is_line_terminator x)) inside = true ->
  stripDelimited o c (before ++ o :: inside ++ c :: after)
  = before ++ stripDelimited o c after.
Proof.
  intros Hb Hi Hlt. unfold stripDelimited.
  induction before as [|y before IH]; simpl.
  - rewrite N.eqb_refl, (closes_ahead_reached c inside after Hlt). simpl.
    now apply strip_to_close.
  - destruct (y =? o) eqn:E.
    + apply N.eqb_eq in E. exfalso. apply Hb. now left.
    + simpl. f_equal. apply IH. intros Hin. apply Hb. now right.
Qed.

Lemma closes_ahead_none (c : code_unit) (s : jsstr) :
  ~ In c s -> closes_ahead c s = false.
Proof.
  induction s as [|y r IH]; simpl; [reflexivity|].
  intros H. destruct (y =? c) eqn:E.
  - apply N.eqb_eq in E. exfalso. apply H. now left.
  - destruct (is_line_terminator y); [reflexivity|].
    apply IH. intros Hin. apply H. now right.
Qed.

Lemma strip_no_fragment (o c : code_unit) (before rest : jsstr) :
  ~ In o before ->
  ~ In c rest ->
  stripDelimited o c (before ++ rest) = before ++ rest.
Proof.
  intros Hb Hr. unfold stripDelimited.
  induction before as [|y before IH]; simpl.
  - clear Hb. induction rest as [|y r IH]; simpl; [reflexivity|].
    rewrite (closes_ahead_none c r) by (intros Hin; apply Hr; now right).
    rewrite andb_false_r. f_equal. apply IH. intros Hin. apply Hr. now right.
  - destruct (y =? o) eqn:E.
    + apply N.eqb_eq in E. exfalso. apply Hb. now left.
    + simpl. f_equal. apply IH. intros Hin. apply Hb. now right.
Qed.

Lemma trim_decomposition (text : jsstr) :
  exists p q, text = p ++ trim text ++ q /\
              forallb is_space p = true /\ forallb is_space q = true.
Proof.
  destruct (trimStart_suffix text) as [p [Hp Hps]].
  destruct (trimEnd_prefix (trimStart text)) as [q [Hq Hqs]].
  exists p, q. unfold trim. rewrite <- Hq. auto.
Qed.

(** C7.  The normaliser is the chain: whitespace runs collapsed to one plain
    space, then the bracket fragments removed, then the brace fragments,
    then a trim.  The collapse copies every code unit that is not whitespace
    and puts exactly one plain space for each maximal run of whitespace.
    The removal of fragments keeps what precedes the first opening
    delimiter, drops the text from it to the first closing delimiter after
    it, and goes on after that; a text whose first opening delimiter has no
    closing delimiter after it is kept whole.  The trim removes the
    whitespace before the first and after the last code unit that is not
    whitespace, and nothing else.  The result holds no whitespace but plain
    spaces, no fragment of either kind, and no whitespace at its ends.  A
    file whose content is empty or only whitespace gives the empty text and
    no error, and any other readable file gives the normalised selected
    text. *)
Theorem normalize_contract (h : Host) (f html : jsstr) :
  readFile h f = inl html ->
  xr_error (extractTextFromHTML h f) = None /\
  xr_text (extractTextFromHTML h f) =
    (if forallb is_space html then []
     else normalize (selectText (cheerio h html))) /\
  (forall text : jsstr,
    let collapsed := collapseWhitespace text in
    let unbracketed := stripDelimited LBRACKET RBRACKET collapsed in
    let unbraced := stripDelimited LBRACE RBRACE unbracketed in
    normalize text = trim unbraced /\
    (plainSpaces collapsed /\ noSpaceRun collapsed /\
     ink collapsed = ink text) /\
    noFragment LBRACKET RBRACKET unbracketed /\
    noFragment LBRACE RBRACE unbraced /\
    plainSpaces (normalize text) /\ trimmed (normalize text) /\
    noFragment LBRACKET RBRACKET (normalize text) /\
    noFragment LBRACE RBRACE (normalize text)) /\
  (forall word rest : jsstr,
    forallb (fun c => negb (is_space c)) word = true ->
    collapseWhitespace (word ++ rest) = word ++ collapseWhitespace rest) /\
  (forall run rest : jsstr,
    run <> [] ->
    forallb is_space run = true ->
    runEnds rest = true ->
    collapseWhitespace (run ++ rest) = SPACE :: collapseWhitespace rest) /\
  (forall (open close : code_unit) (before inside after : jsstr),
    ~ In open before ->
    ~ In close inside ->
    forallb (fun x => negb (is_line_terminator x)) inside = true ->
    stripDelimited open close (before ++ open :: inside ++ close :: after)
    = before ++ stripDelimited open close after) /\
  (forall (open close : code_unit) (before rest : jsstr),
    ~ In open before ->
    ~ In close rest ->
    stripDelimited open close (before ++ rest) = before ++ rest) /\
  (forall text : jsstr,
    exists p q, text = p ++ trim text ++ q /\
                forallb is_space p = true /\ forallb is_space q = true /\
                trimmed (trim text)).
Proof.
  intros Hread.
  assert (Hstages : forall text : jsstr,
    let collapsed := collapseWhitespace text in
    let unbracketed := stripDelimited LBRACKET RBRACKET collapsed in
    let unbraced := stripDelimited LBRACE RBRACE unbracketed in
    normalize text = trim unbraced /\
    (plainSpaces collapsed /\ noSpaceRun collapsed /\
     ink collapsed = ink text) /\
    noFragment LBRACKET RBRACKET unbracketed /\
    noFragment LBRACE RBRACE unbraced /\
    plainSpaces (normalize text) /\ trimmed (normalize text) /\
    noFragment LBRACKET RBRACKET (normalize text) /\
    noFragment LBRACE RBRACE (normalize text)).
  { intros text. cbv zeta.
    split; [reflexivity|].
    split.
    { split; [apply collapse_from_plainSpaces|].
      split; [apply collapse_from_runs|apply collapse_from_ink]. }
    split.
    { apply strip_from_noFragment, plainSpaces_no_line_terminator.
      apply collapse_from_plainSpaces. }
    split.
    { apply strip_from_noFragment, plainSpaces_no_line_terminator.
      apply strip_from_plainSpaces, collapse_from_plainSpaces. }
    apply normalize_shape. }
  assert (Herr : xr_error (extractTextFromHTML h f) = None).
  { unfold extractTextFromHTML. rewrite Hread.
    destruct (blank html); reflexivity. }
  assert (Htext : xr_text (extractTextFromHTML h f) =
                  (if forallb is_space html then []
                   else normalize (selectText (cheerio h html)))).
  { unfold extractTextFromHTML. rewrite Hread.
    destruct (blank html) eqn:Hb.
    - apply blank_spec in Hb. now rewrite Hb.
    - destruct (forallb is_space html) eqn:E; [|reflexivity].
      apply blank_spec in E. congruence. }
  split; [exact Herr|]. split; [exact Htext|]. split; [exact Hstages|].
  split; [exact collapse_word|]. split; [exact collapse_run|].
  split; [exact strip_fragment|]. split; [exact strip_no_fragment|].
  intros text. destruct (trim_decomposition text) as [p [q [H [Hp Hq]]]].
  exists p, q. repeat split; try assumption.
  - eapply trim_head; eauto.
  - eapply trim_last; eauto.
Qed.

Lemma normalize_contract_witness :
  (xr_error (extractTextFromHTML Sample.host Sample.blank_html) = None /\
   xr_text (extractTextFromHTML Sample.host Sample.blank_html) = []) /\
  (xr_error (extractTextFromHTML Sample.host Sample.a_html) = None /\
   xr_text (extractTextFromHTML Sample.host Sample.a_html)
   = normalize (selectText (cheerio Sample.host Sample.helloMarkup))) /\
  collapseWhitespace (lit "a" ++ [SPACE; 9; 10] ++ lit "b")
  = lit "a" ++ SPACE :: collapseWhitespace (lit "b") /\
  stripDelimited LBRACKET RBRACKET
    (lit "a " ++ LBRACKET :: lit "1[2" ++ RBRACKET :: lit " b]")
  = lit "a " ++ stripDelimited LBRACKET RBRACKET (lit " b]") /\
  stripDelimited LBRACKET RBRACKET (lit "a] " ++ lit "[b")
  = lit "a] " ++ lit "[b" /\
  normalize (lit "  a [1] b {x}  ") = lit "a  b".
Proof.
  pose proof (@normalize_contract Sample.host Sample.blank_html
                [SPACE; SPACE; 10] eq_refl) as [He [Ht _]].
  pose proof (@normalize_contract Sample.host Sample.a_html
                Sample.helloMarkup eq_refl)
    as [He' [Ht' [_ [Hword [Hrun [Hfrag [Hkeep _]]]]]]].
  split; [split; [exact He|exact Ht]|].
  split; [split; [exact He'|exact Ht']|].
  split.
  { rewrite (Hword (lit "a") ([SPACE; 9; 10] ++ lit "b") eq_refl).
    rewrite (Hrun [SPACE; 9; 10] (lit "b"));
      [reflexivity|discriminate|reflexivity|reflexivity]. }
  split.
  { apply (Hfrag LBRACKET RBRACKET (lit "a ") (lit "1[2") (lit " b]")).
    - vm_compute. intuition discriminate.
    - vm_compute. intuition discriminate.
    - reflexivity. }
  split.
  { apply (Hkeep LBRACKET RBRACKET (lit "a] ") (lit "[b")).
    - vm_compute. intuition discriminate.
    - vm_compute. intuition discriminate. }
  reflexivity.
Defined.

(** ** Main-content selection *)

Lemma qualifies_threshold (t : jsstr) : qualifies t = (50 <? len (trim t)).
Proof.
  unfold qualifies. destruct t as [|c r]; [reflexivity|]. reflexivity.
Qed.

Lemma selectLoop_find (doc : jsstr -> jsstr) (sels : list jsstr) :
  selectLoop doc sels =
  match find (fun sel => qualifies (doc sel)) sels with
  | Some sel => doc sel
  | None => []
  end.
Proof.
  induction sels as [|sel rest IH]; simpl; [reflexivity|].
  destruct (qualifies (doc sel)); [reflexivity|exact IH].
Qed.

Lemma qualifies_truthy (t : jsstr) : qualifies t = true -> truthy t = true.
Proof. unfold qualifies. intros H. now apply andb_true_iff in H. Qed.

Lemma selectText_find (doc : jsstr -> jsstr) :
  selectText doc =
  match find (fun sel => qualifies (doc sel)) selectors with
  | Some sel => doc sel
  | None => doc (lit "body")
  end.
Proof.
  unfold selectText. rewrite selectLoop_find.
  destruct (find (fun sel => qualifies (doc sel)) selectors) as [sel|] eqn:E.
  - apply find_some in E as [_ E]. now rewrite (qualifies_truthy _ E).
  - simpl. destruct (doc (lit "body")); reflexivity.
Qed.

(** C6.  For markup that is not blank the extractor normalises the selected
    text; the selection goes through the selectors in their fixed order
    (main, article, the main role, the four wrapper classes, body) and
    takes the text of the first one whose trimmed length exceeds 50; when
    none does it takes the text of body, which is the empty string when
    there is none. *)
Theorem selector_priority (h : Host) (f html : jsstr) :
  readFile h f = inl html ->
  blank html = false ->
  let doc := cheerio h html in
  xr_text (extractTextFromHTML h f) = normalize (selectText doc) /\
  selectors =
    [ lit "main"; lit "article";
      lit "[role=" ++ [QUOTE] ++ lit "main" ++ [QUOTE] ++ lit "]";
      lit ".main-content"; lit ".content"; lit ".prose"; lit ".container";
      lit "body" ] /\
  (forall t, qualifies t = (50 <? len (trim t))) /\
  selectText doc =
    match find (fun sel => qualifies (doc sel)) selectors with
    | Some sel => doc sel
    | None => doc (lit "body")
    end /\
  (forall before sel after,
      selectors = before ++ sel :: after ->
      forallb (fun s => negb (qualifies (doc s))) before = true ->
      qualifies (doc sel) = true ->
      selectText doc = doc sel).
Proof.
  intros Hread Hblank doc.
  split.
  { unfold extractTextFromHTML. now rewrite Hread, Hblank. }
  split; [reflexivity|].
  split; [exact qualifies_threshold|].
  split; [apply selectText_find|].
  intros before sel after Hsel Hbefore Hq.
  rewrite selectText_find, Hsel. clear Hsel.
  induction before as [|s before IH]; simpl in *.
  - now rewrite Hq.
  - apply andb_true_iff in Hbefore as [Hs Hb].
    apply negb_true_iff in Hs. rewrite Hs. now apply IH.
Qed.

Lemma selector_priority_witness :
  xr_text (extractTextFromHTML Sample.host Sample.a_html) = Sample.helloText.
Proof.
  pose proof (@selector_priority Sample.host Sample.a_html Sample.helloMarkup
                eq_refl eq_refl) as [Ht [_ [_ [_ Hfirst]]]].
  rewrite Ht.
  rewrite (Hfirst [] (lit "main") (tl selectors) eq_refl eq_refl eq_refl).
  reflexivity.
Defined.

(** ** Table of contents *)

Lemma maxOf_greatest (xs : list N) (x0 : N) :
  greatestOf (maxOf xs x0) (x0 :: xs).
Proof.
  unfold greatestOf, maxOf. induction xs as [|x xs [IHin IHle]]; simpl.
  - split; [now left|]. constructor; [lia|constructor].
  - split.
    + destruct (N.max_spec x (fold_right N.max x0 xs)) as [[_ ->]|[_ ->]].
      * destruct IHin as [H|H]; [now left|right; now right].
      * right. now left.
    + inversion IHle as [|? ? H0 Hxs]; subst.
      constructor; [lia|]. constructor; [lia|].
      eapply Forall_impl; [|exact Hxs]. simpl. intros; lia.
Qed.

Lemma len_app (a b : jsstr) : len (a ++ b) = len a + len b.
Proof. unfold len. rewrite length_app. apply Nat2N.inj_add. Qed.

Lemma len_repeatUnit (c : code_unit) (n : N) : len (repeatUnit c n) = n.
Proof. unfold len, repeatUnit. rewrite repeat_length. apply N2Nat.id. Qed.

Lemma len_padEnd (s : jsstr) (w : N) : len (padEnd s w) = N.max (len s) w.
Proof. unfold padEnd. rewrite len_app, len_repeatUnit. lia. Qed.

Lemma len_padStart (s : jsstr) (w : N) : len (padStart s w) = N.max (len s) w.
Proof. unfold padStart. rewrite len_app, len_repeatUnit. lia. Qed.

Lemma len_tableRow (c1 c2 c3 : jsstr) :
  len (tableRow c1 c2 c3) = len c1 + len c2 + len c3 + 10.
Proof.
  unfold tableRow. rewrite !len_app.
  change (len Box.V) with 1. change (len Box.v) with 1.
  change (len (lit " ")) with 1. lia.
Qed.

Lemma len_makeDivider (w1 w2 w3 : N) (l m1 m2 r : jsstr) :
  len (makeDivider w1 w2 w3 l m1 m2 r) =
  len l + len m1 + len m2 + len r + w1 + w2 + w3 + 6.
Proof.
  unfold makeDivider. rewrite !len_app, !len_repeatUnit. lia.
Qed.

Lemma greatestOf_bound (m x : N) (xs : list N) :
  greatestOf m xs -> In x xs -> N.max x m = m.
Proof.
  intros [_ H] Hin. rewrite Forall_forall in H. specialize (H x Hin). lia.
Qed.

(** C8.  With no item the formatter returns the sentinel sentence alone.
    With at least one item it returns the table, and each column's width is
    the greatest of the width of its header label and of the widths of its
    values; every cell is padded to exactly that width, so the header row,
    every body row and the three dividers have the same length. *)
Theorem toc_contract (h : Host) (srcDir : jsstr) :
  makeTocSection h [] srcDir = lit "No files were processed." /\
  forall (item : Item) (rest : list Item),
    let items := item :: rest in
    let wPath := maxPathLength items srcDir in
    let wSize := maxSizeLength items in
    let wChars := maxCharsLength items in
    let width := wPath + wSize + wChars + 10 in
    greatestOf wPath
      (len (lit "File Path")
       :: map (fun it => len (Path.relative srcDir (it_path it))) items) /\
    greatestOf wSize
      (len (lit "Size") :: map (fun it => len (toString (it_size it))) items) /\
    greatestOf wChars
      (len (lit "Chars")
       :: map (fun it => len (toString (it_textLength it))) items) /\
    makeTocSection h items srcDir =
      join NL
        [ makeDivider wPath wSize wChars Box.TL Box.TM Box.TM Box.TR;
          headerRow wPath wSize wChars;
          makeDivider wPath wSize wChars Box.ML Box.MM Box.MM Box.MR;
          join NL (map (bodyRow srcDir wPath wSize wChars) items);
          makeDivider wPath wSize wChars Box.BL Box.BM Box.BM Box.BR ]
      ++ join NL
           [ NL ++ lit "Total files: " ++ toString (N.of_nat (length items));
             lit "Total characters: "
               ++ toLocaleString h (totalCharacters items);
             [] ] /\
    makeTocSection h items srcDir <> lit "No files were processed." /\
    Forall (fun it =>
              len (padEnd (Path.relative srcDir (it_path it)) wPath) = wPath /\
              len (padStart (toString (it_size it)) wSize) = wSize /\
              len (padStart (toString (it_textLength it)) wChars) = wChars /\
              len (bodyRow srcDir wPath wSize wChars it) = width) items /\
    len (headerRow wPath wSize wChars) = width /\
    len (makeDivider wPath wSize wChars Box.TL Box.TM Box.TM Box.TR) = width.
Proof.
  split; [reflexivity|].
  intros item rest items wPath wSize wChars width.
  pose proof (maxOf_greatest
    (map (fun it => len (Path.relative srcDir (it_path it))) items)
    (len headers.filePath)) as Hp.
  pose proof (maxOf_greatest
    (map (fun it => len (toString (it_size it))) items)
    (len headers.size)) as Hs.
  pose proof (maxOf_greatest
    (map (fun it => len (toString (it_textLength it))) items)
    (len headers.chars)) as Hc.
  fold (maxPathLength items srcDir) in Hp. fold (maxSizeLength items) in Hs.
  fold (maxCharsLength items) in Hc. fold wPath in Hp. fold wSize in Hs.
  fold wChars in Hc.
  split; [exact Hp|]. split; [exact Hs|]. split; [exact Hc|].
  split; [reflexivity|].
  split; [discriminate|].
  split.
  - apply Forall_forall. intros it Hit.
    assert (H1 : len (padEnd (Path.relative srcDir (it_path it)) wPath) = wPath).
    { rewrite len_padEnd. eapply greatestOf_bound; [exact Hp|]. right.
      apply (in_map (fun it => len (Path.relative srcDir (it_path it)))).
      exact Hit. }
    assert (H2 : len (padStart (toString (it_size it)) wSize) = wSize).
    { rewrite len_padStart. eapply greatestOf_bound; [exact Hs|]. right.
      apply (in_map (fun it => len (toString (it_size it)))). exact Hit. }
    assert (H3 : len (padStart (toString (it_textLength it)) wChars) = wChars).
    { rewrite len_padStart. eapply greatestOf_bound; [exact Hc|]. right.
      apply (in_map (fun it => len (toString (it_textLength it)))).
      exact Hit. }
    repeat split; try assumption.
    unfold bodyRow. rewrite len_tableRow, H1, H2, H3. reflexivity.
  - split.
    + unfold headerRow. rewrite len_tableRow, len_padEnd, !len_padStart.
      rewrite (@greatestOf_bound _ _ _ Hp (or_introl eq_refl)).
      rewrite (@greatestOf_bound _ _ _ Hs (or_introl eq_refl)).
      rewrite (@greatestOf_bound _ _ _ Hc (or_introl eq_refl)).
      reflexivity.
    + rewrite len_makeDivider. unfold width.
      change (len Box.TL) with 1. change (len Box.TM) with 1.
      change (len Box.TR) with 1. lia.
Qed.

(** ** The Executor *)

Section PromiseAll.
Variable A : Type.
Variable values : list A.

Lemma length_fillSlot (i : nat) (x : A) (slots : list (option A)) :
    length (fillSlot i x slots) = length slots.
  Proof.
    revert i; induction slots as [|s r IH]; intros [|i]; simpl; auto.
  Qed.

Lemma nth_fillSlot_same (i : nat) (x : A) (slots : list (option A)) :
    (i < length slots)%nat -> nth_error (fillSlot i x slots) i = Some (Some x).
  Proof.
    revert i; induction slots as [|s r IH]; intros [|i] H; simpl in *;
      try lia; [reflexivity|]. apply IH. lia.
  Qed.

Lemma nth_fillSlot_other (i j : nat) (x : A) (slots : list (option A)) :
    i <> j -> nth_error (fillSlot i x slots) j = nth_error slots j.
  Proof.
    revert i j; induction slots as [|s r IH]; intros [|i] [|j] H; simpl;
      try reflexivity; try congruence.
    apply IH. congruence.
  Qed.

Lemma settle_agree (slots : list (option A)) (i : nat) :
    slotsAgree values slots -> slotsAgree values (settle values slots i).
  Proof.
    intros [Hlen Hval]. unfold settle.
    destruct (nth_error values i) as [x|] eqn:E; [|now split].
    split; [now rewrite length_fillSlot|].
    intros j y Hj. destruct (Nat.eq_dec i j) as [->|Hne].
    - rewrite nth_fillSlot_same in Hj; [congruence|].
      rewrite Hlen. apply nth_error_Some. congruence.
    - rewrite nth_fillSlot_other in Hj by exact Hne. now apply Hval.
  Qed.

Lemma settle_keeps (slots : list (option A)) (i j : nat) (x : A) :
    slotsAgree values slots ->
    nth_error slots j = Some (Some x) ->
    nth_error (settle values slots i) j = Some (Some x).
  Proof.
    intros [Hlen Hval] Hj. unfold settle.
    destruct (nth_error values i) as [y|] eqn:E; [|exact Hj].
    destruct (Nat.eq_dec i j) as [->|Hne].
    - rewrite nth_fillSlot_same.
      + apply Hval in Hj. congruence.
      + apply nth_error_Some. congruence.
    - now rewrite nth_fillSlot_other.
  Qed.

Lemma settle_fills (slots : list (option A)) (i : nat) (x : A) :
    slotsAgree values slots ->
    nth_error values i = Some x ->
    nth_error (settle values slots i) i = Some (Some x).
  Proof.
    intros [Hlen _] Hi. unfold settle. rewrite Hi.
    apply nth_fillSlot_same. rewrite Hlen. apply nth_error_Some. congruence.
  Qed.

Lemma fold_settle (order : list nat) (slots : list (option A)) :
    slotsAgree values slots ->
    slotsAgree values (fold_left (settle values) order slots) /\
    forall j x, nth_error values j = Some x ->
                In j order \/ nth_error slots j = Some (Some x) ->
                nth_error (fold_left (settle values) order slots) j
                = Some (Some x).
  Proof.
    revert slots; induction order as [|i order IH]; intros slots Hs; simpl.
    - split; [exact Hs|]. intros j x _ [[]|H]; exact H.
    - destruct (IH _ (settle_agree i Hs)) as [IH1 IH2].
      split; [exact IH1|].
      intros j x Hj [[->|Hin]|Hold].
      + apply IH2; [exact Hj|]. right. now apply settle_fills.
      + apply IH2; [exact Hj|]. now left.
      + apply IH2; [exact Hj|]. right. now apply settle_keeps.
  Qed.

Lemma allFilled_complete (slots : list (option A)) :
    length slots = length values ->
    (forall j x, nth_error values j = Some x ->
                 nth_error slots j = Some (Some x)) ->
    allFilled slots = Some values.
  Proof.
    revert slots. induction values as [|v vs IH]; intros [|s slots] Hlen H;
      simpl in *; try discriminate; [reflexivity|].
    pose proof (H 0%nat v eq_refl) as H0. simpl in H0. injection H0 as ->.
    rewrite IH; [reflexivity|lia|].
    intros j x Hj. apply (H (S j) x Hj).
  Qed.

Lemma slotsAgree_empty : slotsAgree values (repeat None (length values)).
  Proof.
    split; [apply repeat_length|].
    intros j x H. exfalso.
    assert (Hin : In (Some x) (repeat (@None A) (length values)))
      by (eapply nth_error_In; eauto).
    apply repeat_spec in Hin. discriminate.
  Qed.

  (** Whatever the order in which the tasks complete, once each has
      completed the promise is fulfilled with the values in task order. *)
Lemma promiseAll_any_order (order : list nat) :
    (forall j, (j < length values)%nat -> In j order) ->
    promiseAll values order = Some values.
  Proof.
    intros Hall. unfold promiseAll.
    destruct (fold_settle order slotsAgree_empty) as [[Hlen _] Hfill].
    apply allFilled_complete; [exact Hlen|].
    intros j x Hj. apply Hfill; [exact Hj|]. left. apply Hall.
    apply nth_error_Some. congruence.
  Qed.
End PromiseAll.

(** An order in which every one of [n] tasks completes once. *)
Lemma complete_order_covers (n : nat) (order : list nat) :
  Permutation (seq 0 n) order -> forall j, (j < n)%nat -> In j order.
Proof.
  intros Hp j Hj. eapply Permutation_in; [exact Hp|].
  apply in_seq. lia.
Qed.

Lemma runTasks_complete (h : Host) (files : list jsstr) (order : list nat) :
  Permutation (seq 0 (length files)) order ->
  runTasks h files order = Some (map (processFile h) files).
Proof.
  intros Hp. unfold runTasks. apply promiseAll_any_order.
  rewrite length_map. now apply complete_order_covers.
Qed.

(** ** Sorting *)

Section SortFacts.
Variable A : Type.
Variable cmp : A -> A -> Z.

Lemma insertSorted_perm (x : A) (l : list A) :
    Permutation (x :: l) (insertSorted cmp x l).
  Proof.
    induction l as [|y r IH]; simpl; [reflexivity|].
    destruct (cmp x y <=? 0)%Z; [reflexivity|].
    etransitivity; [apply perm_swap|]. now apply perm_skip.
  Qed.

Lemma sortWith_perm (l : list A) : Permutation l (sortWith cmp l).
  Proof.
    induction l as [|x l IH]; simpl; [reflexivity|].
    etransitivity; [|apply insertSorted_perm]. now apply perm_skip.
  Qed.

Lemma length_sortWith (l : list A) : length (sortWith cmp l) = length l.
  Proof. symmetry. apply Permutation_length, sortWith_perm. Qed.

Section Consistent.
Hypothesis Hcmp : consistentComparator cmp.

Lemma insertSorted_sorted (x : A) (l : list A) :
      sortedBy cmp l -> sortedBy cmp (insertSorted cmp x l).
    Proof.
      destruct Hcmp as [Htotal Htrans]. unfold sortedBy.
      induction l as [|y r IH]; intros Hl; simpl.
      - repeat constructor.
      - inversion Hl as [|? ? Hr Hy]; subst.
        destruct (cmp x y <=? 0)%Z eqn:E.
        + apply Z.leb_le in E. constructor; [exact Hl|].
          constructor; [exact E|].
          eapply Forall_impl; [|exact Hy]. intros z Hz. now apply Htrans with y.
        + apply Z.leb_gt in E. constructor; [now apply IH|].
          eapply Permutation_Forall; [apply insertSorted_perm|].
          constructor; [|exact Hy].
          destruct (Htotal x y); [lia|assumption].
    Qed.

Lemma sortWith_sorted (l : list A) : sortedBy cmp (sortWith cmp l).
    Proof.
      induction l as [|x l IH]; simpl; [constructor|].
      now apply insertSorted_sorted.
    Qed.
End Consistent.

Section Total.
Hypothesis Hcmp : consistentComparator cmp.
Hypothesis Hanti :
      forall a b, (cmp a b <= 0)%Z -> (cmp b a <= 0)%Z -> a = b.

Lemma insertSorted_comm (x y : A) (l : list A) :
      insertSorted cmp x (insertSorted cmp y l)
      = insertSorted cmp y (insertSorted cmp x l).
    Proof.
      destruct Hcmp as [Htotal Htrans].
      assert (Hxy : (cmp x y <= 0)%Z -> (cmp y x <= 0)%Z -> x = y)
        by apply Hanti.
      induction l as [|z r IH]; simpl.
      - destruct (cmp x y <=? 0)%Z eqn:Exy, (cmp y x <=? 0)%Z eqn:Eyx;
          try reflexivity.
        + apply Z.leb_le in Exy, Eyx. now rewrite (Hxy Exy Eyx).
        + apply Z.leb_gt in Exy, Eyx. destruct (Htotal x y); lia.
      - destruct (cmp y z <=? 0)%Z eqn:Eyz, (cmp x z <=? 0)%Z eqn:Exz,
                 (cmp x y <=? 0)%Z eqn:Exy, (cmp y x <=? 0)%Z eqn:Eyx;
          simpl; rewrite ?Eyz, ?Exz, ?Exy, ?Eyx; simpl;
          rewrite ?Eyz, ?Exz, ?Exy, ?Eyx; try reflexivity;
          rewrite ?Z.leb_le, ?Z.leb_gt in *;
          try (rewrite (Hxy Exy Eyx); reflexivity);
          try (destruct (Htotal x y); lia);
          try (pose proof (Htrans _ _ _ Exy Eyz); lia);
          try (pose proof (Htrans _ _ _ Eyx Exz); lia);
          try (f_equal; exact IH).
    Qed.

    (** Under a total order the sorted list depends on the elements only. *)
Lemma sortWith_of_perm (l l' : list A) :
      Permutation l l' -> sortWith cmp l = sortWith cmp l'.
    Proof.
      induction 1 as [|x l l' _ IH|x y l|l l' l'' _ IH1 _ IH2]; simpl.
      - reflexivity.
      - now rewrite IH.
      - apply insertSorted_comm.
      - congruence.
    Qed.
End Total.
End SortFacts.

(** The default string order. *)

Lemma leb_total (a b : jsstr) : JS.leb a b = true \/ JS.leb b a = true.
Proof.
  revert b; induction a as [|x a IH]; intros [|y b]; simpl; auto.
  destruct (N.lt_trichotomy x y) as [H|[H|H]].
  - left. apply orb_true_iff. left. now apply N.ltb_lt.
  - subst y. rewrite N.ltb_irrefl, N.eqb_refl. simpl. apply IH.
  - right. apply orb_true_iff. left. now apply N.ltb_lt.
Qed.

Lemma leb_cons (x y : code_unit) (a b : jsstr) :
  JS.leb (x :: a) (y :: b) = true <-> x < y \/ (x = y /\ JS.leb a b = true).
Proof.
  simpl. rewrite orb_true_iff, andb_true_iff, N.ltb_lt, N.eqb_eq. tauto.
Qed.

Lemma leb_trans (a b c : jsstr) :
  JS.leb a b = true -> JS.leb b c = true -> JS.leb a c = true.
Proof.
  revert b c; induction a as [|x a IH]; intros [|y b] [|z c]; try easy.
  rewrite !leb_cons. intros [H1|[-> H1]] [H2|[-> H2]].
  - left. lia.
  - now left.
  - now left.
  - right. split; [reflexivity|]. now apply IH with b.
Qed.

Lemma leb_antisym (a b : jsstr) :
  JS.leb a b = true -> JS.leb b a = true -> a = b.
Proof.
  revert b; induction a as [|x a IH]; intros [|y b]; try easy.
  rewrite !leb_cons. intros [H1|[-> H1]] [H2|[H2 H3]]; try lia.
  f_equal. now apply IH.
Qed.

Lemma defaultCompare_le (a b : jsstr) :
  (defaultCompare a b <= 0)%Z <-> JS.leb a b = true.
Proof.
  unfold defaultCompare. destruct (JS.leb a b), (JS.leb b a); split;
    intros; try reflexivity; try lia; discriminate.
Qed.

Lemma defaultCompare_consistent : consistentComparator defaultCompare.
Proof.
  split.
  - intros a b. rewrite !defaultCompare_le. apply leb_total.
  - intros a b c. rewrite !defaultCompare_le. apply leb_trans.
Qed.

Lemma defaultCompare_antisym (a b : jsstr) :
  (defaultCompare a b <= 0)%Z -> (defaultCompare b a <= 0)%Z -> a = b.
Proof. rewrite !defaultCompare_le. apply leb_antisym. Qed.

(** ** File discovery *)

Lemma existsb_eqb (x : jsstr) (l : list jsstr) :
  existsb (JS.eqb x) l = true <-> In x l.
Proof.
  rewrite existsb_exists. split.
  - intros [y [Hy E]]. apply eqb_eq in E. now subst.
  - intros H. exists x. split; [exact H|apply eqb_refl].
Qed.

Lemma dedupe_from_In (seen l : list jsstr) (x : jsstr) :
  In x (dedupe_from seen l) <-> In x l /\ ~ In x seen.
Proof.
  revert seen; induction l as [|y r IH]; intros seen; simpl; [tauto|].
  destruct (existsb (JS.eqb y) seen) eqn:E.
  - apply existsb_eqb in E. rewrite IH. split.
    + intros [H1 H2]. auto.
    + intros [[->|H1] H2]; [contradiction|auto].
  - assert (Hy : ~ In y seen).
    { intros H. apply existsb_eqb in H. congruence. }
    simpl. rewrite IH. simpl. split.
    + intros [->|[H1 H2]]; [auto|]. split; [now right|tauto].
    + intros [[->|H1] H2]; [now left|].
      destruct (list_eq_dec N.eq_dec y x) as [->|Hne]; [now left|].
      right. split; [exact H1|]. intros [H|H]; [contradiction|contradiction].
Qed.

Lemma dedupe_from_NoDup (seen l : list jsstr) : NoDup (dedupe_from seen l).
Proof.
  revert seen; induction l as [|y r IH]; intros seen; simpl; [constructor|].
  destruct (existsb (JS.eqb y) seen); [apply IH|].
  constructor; [|apply IH].
  rewrite dedupe_from_In. intros [_ H]. apply H. now left.
Qed.

Lemma dedupe_In (l : list jsstr) (x : jsstr) : In x (dedupe l) <-> In x l.
Proof. unfold dedupe. rewrite dedupe_from_In. simpl. tauto. Qed.

Lemma listHtmlFiles_In (h : Host) (globbed : list jsstr) (f : jsstr) :
  In f (listHtmlFiles h globbed) <-> In f (map (resolve h) globbed).
Proof.
  unfold listHtmlFiles. rewrite <- (dedupe_In (map (resolve h) globbed)).
  split; intros H.
  - eapply Permutation_in; [symmetry; apply sortWith_perm|exact H].
  - eapply Permutation_in; [apply sortWith_perm|exact H].
Qed.

Lemma listHtmlFiles_NoDup (h : Host) (globbed : list jsstr) :
  NoDup (listHtmlFiles h globbed).
Proof.
  unfold listHtmlFiles.
  eapply Permutation_NoDup; [apply sortWith_perm|].
  apply dedupe_from_NoDup.
Qed.

(** The file list depends on the set of paths [glob] found, not on the
    order in which it listed them nor on repetitions. *)
Lemma listHtmlFiles_order_free (h : Host) (g1 g2 : list jsstr) :
  (forall f, In f g1 <-> In f g2) ->
  listHtmlFiles h g1 = listHtmlFiles h g2.
Proof.
  intros Hsame. unfold listHtmlFiles.
  apply sortWith_of_perm.
  - apply defaultCompare_consistent.
  - apply defaultCompare_antisym.
  - apply NoDup_Permutation; try apply dedupe_from_NoDup.
    intros x. rewrite !dedupe_In, !in_map_iff.
    split; intros [y [Hy Hin]]; exists y; (split; [exact Hy|now apply Hsame]).
Qed.

(** ** Relative paths *)











(** ** One task *)

Lemma processFile_read_ok (h : Host) (f html : jsstr) :
  readFile h f = inl html ->
  error (processFile h f) = None /\ noError (processFile h f) = true /\
  text (processFile h f) = xr_text (extractTextFromHTML h f).
Proof.
  intros H. unfold noError, processFile, extractTextFromHTML. simpl.
  rewrite H. destruct (blank html); simpl; auto.
Qed.

Lemma processFile_read_failed (h : Host) (f message : jsstr) :
  readFile h f = inr message ->
  error (processFile h f) = orNull (Some message) /\
  text (processFile h f) = [] /\ textLength (processFile h f) = 0 /\
  size (processFile h f) = match stat h f with Some s => s | None => 0 end.
Proof.
  intros H. unfold processFile, extractTextFromHTML. simpl.
  rewrite H. simpl. auto.
Qed.

Lemma orNull_message (message : jsstr) :
  message <> [] -> orNull (Some message) = Some message.
Proof. destruct message; [congruence|reflexivity]. Qed.

Lemma read_failed_fields (h : Host) (f message : jsstr) :
  readFile h f = inr message ->
  message <> [] ->
  error (processFile h f) = Some message /\
  text (processFile h f) = [] /\
  textLength (processFile h f) = 0 /\
  size (processFile h f) = match stat h f with Some s => s | None => 0 end.
Proof.
  intros Hread Hmsg.
  destruct (processFile_read_failed h f Hread) as [He [Ht [Hl Hs]]].
  rewrite He, (orNull_message Hmsg). auto.
Qed.

(** C2, as the code has it.  When the read of a file fails with a message,
    the task's result carries that message as its error, the empty text and
    the text length 0; its size is the size [stat] reports for the file, and
    is 0 when [stat] fails as well. *)
Theorem read_failure_result (h : Host) (f message : jsstr) :
  readFile h f = inr message ->
  message <> [] ->
  error (processFile h f) = Some message /\
  text (processFile h f) = [] /\
  textLength (processFile h f) = 0 /\
  size (processFile h f) = match stat h f with Some s => s | None => 0 end.
Proof. apply read_failed_fields. Qed.

Lemma read_failure_result_witness :
  error (processFile Sample.host Sample.b_html) = Some Sample.denied /\
  text (processFile Sample.host Sample.b_html) = [] /\
  textLength (processFile Sample.host Sample.b_html) = 0 /\
  size (processFile Sample.host Sample.b_html) = 120.
Proof.
  apply (@read_failure_result Sample.host Sample.b_html Sample.denied).
  - reflexivity.
  - discriminate.
Defined.

(** C2, as the specification words it, fails: [b.html] of the sample host
    cannot be read but [stat] succeeds on it, and the result carries its
    120 bytes. *)
Lemma read_failure_size_counterexample :
  ~ (forall (h : Host) (f message : jsstr),
        readFile h f = inr message ->
        error (processFile h f) = Some message /\
        text (processFile h f) = [] /\
        size (processFile h f) = 0).
Proof.
  intros H.
  destruct (H Sample.host Sample.b_html Sample.denied eq_refl) as [_ [_ Hs]].
  discriminate Hs.
Qed.

(** ** A whole run *)

Lemma main_completes (h : Host) (cfg : Config) (globbed : list jsstr)
  (order : list nat) (nowIndex nowCorpus : jsstr) :
  pathExists h (SRC_DIR cfg) = true ->
  listHtmlFiles h globbed <> [] ->
  concurrency cfg <> 0 ->
  Permutation (seq 0 (length (listHtmlFiles h globbed))) order ->
  let successful :=
    successfulExtractions
      (sortExtracted h (map (processFile h) (listHtmlFiles h globbed))) in
  main h cfg globbed order nowIndex nowCorpus =
  Done {| generatedAt := nowIndex; source := SRC_DIR cfg;
          pages := map toPage successful |}
       (generateLLMTextStream h nowCorpus (map toItem successful)
                              (SRC_DIR cfg)).
Proof.
  intros Hsrc Hfiles Hk Horder. unfold main. rewrite Hsrc. simpl.
  rewrite (@runTasks_complete h _ _ Horder).
  destruct (listHtmlFiles h globbed) as [|f files] eqn:E; [congruence|].
  apply N.eqb_neq in Hk. now rewrite Hk.
Qed.

Lemma successful_In (h : Host) (extracted : list Extracted) (e : Extracted) :
  In e (successfulExtractions (sortExtracted h extracted)) <->
  In e extracted /\ noError e = true.
Proof.
  unfold successfulExtractions, sortExtracted. rewrite filter_In.
  split; intros [H1 H2]; (split; [|exact H2]).
  - eapply Permutation_in; [symmetry; apply sortWith_perm|exact H1].
  - eapply Permutation_in; [apply sortWith_perm|exact H1].
Qed.

Lemma filter_perm (A : Type) (p : A -> bool) (l l' : list A) :
  Permutation l l' -> Permutation (filter p l) (filter p l').
Proof.
  induction 1 as [|x l l' _ IH|x y l|l l' l'' _ IH1 _ IH2]; simpl.
  - reflexivity.
  - destruct (p x); [now apply perm_skip|exact IH].
  - destruct (p x), (p y); try reflexivity. apply perm_swap.
  - etransitivity; eauto.
Qed.

Lemma filter_all (A : Type) (p : A -> bool) (l : list A) :
  (forall x, In x l -> p x = true) -> filter p l = l.
Proof.
  induction l as [|x l IH]; intros H; simpl; [reflexivity|].
  rewrite (H x (or_introl eq_refl)). f_equal. apply IH.
  intros y Hy. apply H. now right.
Qed.

(** All files but the one that fails pass the filter. *)
Lemma successful_count (h : Host) (files : list jsstr) (f : jsstr) :
  NoDup files -> In f files ->
  noError (processFile h f) = false ->
  (forall g, In g files -> g <> f -> noError (processFile h g) = true) ->
  length (successfulExtractions (sortExtracted h (map (processFile h) files)))
  = (length files - 1)%nat.
Proof.
  intros Hnd Hin Hf Hothers.
  unfold successfulExtractions, sortExtracted.
  rewrite <- (Permutation_length
                (filter_perm noError (sortWith_perm _ (map (processFile h) files)))).
  destruct (in_split _ _ Hin) as [l1 [l2 ->]].
  apply NoDup_remove_2 in Hnd.
  rewrite map_app, filter_app. simpl. rewrite Hf.
  rewrite !filter_all.
  - rewrite !length_app, !length_map. simpl. lia.
  - intros x Hx. apply in_map_iff in Hx as [g [<- Hg]].
    apply Hothers; [apply in_or_app; right; now right|].
    intros ->. apply Hnd. apply in_or_app. now right.
  - intros x Hx. apply in_map_iff in Hx as [g [<- Hg]].
    apply Hothers; [apply in_or_app; now left|].
    intros ->. apply Hnd. apply in_or_app. now left.
Qed.

Lemma map_path_processFile (h : Host) (files : list jsstr) :
  map path (map (processFile h) files) = files.
Proof.
  rewrite map_map. simpl. apply map_id.
Qed.

Lemma noError_read_failed (h : Host) (f message : jsstr) :
  readFile h f = inr message -> message <> [] ->
  noError (processFile h f) = false.
Proof.
  intros Hread Hmsg. unfold noError.
  destruct (read_failed_fields h f Hread Hmsg) as [-> _].
  destruct message; [congruence|reflexivity].
Qed.

Lemma successful_error_null (h : Host) (files : list jsstr) (e : Extracted) :
  In e (successfulExtractions (sortExtracted h (map (processFile h) files))) ->
  error e = None.
Proof.
  intros H. apply successful_In in H as [Hin Hok].
  apply in_map_iff in Hin as [f [<- _]].
  unfold noError in Hok. unfold processFile in *. simpl in *.
  destruct (xr_error (extractTextFromHTML h f)) as [[|c m]|]; simpl in *;
    try reflexivity; discriminate.
Qed.

(** Where the stream holds the section of an item. *)

Lemma sections_at (h : Host) (items : list Item) (i : nat) (it : Item) :
  nth_error items i = Some it ->
  nth_error (flat_map (sectionChunks h) items) (2 * i)
    = Some (makeFileHeader (Path.relative (cwd h) (it_path it)) ++ NL) /\
  nth_error (flat_map (sectionChunks h) items) (1 + 2 * i)
    = Some (match it_text it with
            | [] => lit "[No extractable text]" ++ NL ++ NL
            | _ :: _ => it_text it ++ NL ++ NL
            end).
Proof.
  revert i; induction items as [|x items IH]; intros [|i] H;
    simpl in H; try discriminate.
  - injection H as ->. split; [reflexivity|].
    simpl. f_equal. destruct (it_text it); reflexivity.
  - destruct (IH i H) as [H0 H1].
    replace (2 * S i)%nat with (S (S (2 * i))) by lia.
    replace (1 + S (S (2 * i)))%nat with (S (S (1 + 2 * i))) by lia.
    split; [exact H0|exact H1].
Qed.

Lemma length_sections (h : Host) (items : list Item) :
  length (flat_map (sectionChunks h) items) = (2 * length items)%nat.
Proof.
  induction items as [|x items IH]; simpl; [reflexivity|]. lia.
Qed.

Lemma toItem_read_ok (h : Host) (g html : jsstr) :
  readFile h g = inl html ->
  toItem (processFile h g) =
  {| it_path := g;
     it_text := if blank html then []
                else normalize (selectText (cheerio h html));
     it_size := match stat h g with Some s => s | None => 0 end;
     it_textLength := len (if blank html then []
                           else normalize (selectText (cheerio h html))) |}.
Proof.
  intros H. unfold toItem, processFile, extractTextFromHTML. simpl.
  rewrite H. destruct (blank html); reflexivity.
Qed.

(** C3.  In a run where one file among those found cannot be read while the
    others can, the Executor still returns one result per file, in task
    order, with the failure stored in the failed file's result; the run
    completes.  The corpus is its four leading chunks, the fourth being the
    table of contents of the items, followed by two chunks per item, and
    the items are exactly the other files: every other file has an item
    that holds the text the Extractor obtains from its content, and the
    corpus holds that item's section, the header with the file's path and
    then that text (the no-text sentence when it is empty).  The failed
    file has no item, and the corpus has one section fewer than there are
    files. *)
Theorem read_failure_isolated (h : Host) (cfg : Config)
  (globbed : list jsstr) (order : list nat) (nowIndex nowCorpus : jsstr)
  (f message : jsstr) :
  pathExists h (SRC_DIR cfg) = true ->
  concurrency cfg <> 0 ->
  Permutation (seq 0 (length (listHtmlFiles h globbed))) order ->
  In f (listHtmlFiles h globbed) ->
  readFile h f = inr message ->
  message <> [] ->
  (forall g, In g (listHtmlFiles h globbed) -> g <> f ->
             exists html, readFile h g = inl html) ->
  exists (extracted : list Extracted) (index : IndexFile) (items : list Item)
         (corpus : list jsstr),
    runTasks h (listHtmlFiles h globbed) order = Some extracted /\
    map path extracted = listHtmlFiles h globbed /\
    (forall e, In e extracted -> path e = f -> error e = Some message) /\
    main h cfg globbed order nowIndex nowCorpus = Done index corpus /\
    corpus =
      [ lit "Generated: " ++ nowCorpus ++ NL;
        lit "Source directory: " ++ SRC_DIR cfg ++ NL;
        lit "Files processed: " ++ toString (N.of_nat (length items))
          ++ NL ++ NL;
        makeTocSection h items (SRC_DIR cfg) ++ NL ]
      ++ flat_map (sectionChunks h) items /\
    (forall g, In g (map it_path items) <->
               In g (listHtmlFiles h globbed) /\ g <> f) /\
    length items = (length (listHtmlFiles h globbed) - 1)%nat /\
    (forall it, In it items ->
                it_text it = xr_text (extractTextFromHTML h (it_path it))) /\
    length corpus = (4 + 2 * (length (listHtmlFiles h globbed) - 1))%nat /\
    (forall g html,
        In g (listHtmlFiles h globbed) -> g <> f ->
        readFile h g = inl html ->
        let extractedText :=
          if forallb is_space html then []
          else normalize (selectText (cheerio h html)) in
        exists i,
          nth_error items i =
            Some {| it_path := g;
                    it_text := extractedText;
                    it_size := match stat h g with
                               | Some s => s
                               | None => 0
                               end;
                    it_textLength := len extractedText |} /\
          nth_error corpus (4 + 2 * i) =
            Some (makeFileHeader (Path.relative (cwd h) g) ++ NL) /\
          nth_error corpus (5 + 2 * i) =
            Some (match extractedText with
                  | [] => lit "[No extractable text]" ++ NL ++ NL
                  | _ :: _ => extractedText ++ NL ++ NL
                  end)).
Proof.
  intros Hsrc Hk Horder Hin Hread Hmsg Hothers.
  set (files := listHtmlFiles h globbed) in *.
  set (successful :=
         successfulExtractions (sortExtracted h (map (processFile h) files))).
  assert (Hfail : noError (processFile h f) = false)
    by (eapply noError_read_failed; eauto).
  assert (Hpass : forall g, In g files -> g <> f ->
                            noError (processFile h g) = true).
  { intros g Hg Hne. destruct (Hothers g Hg Hne) as [html Hhtml].
    now apply (processFile_read_ok h g Hhtml). }
  assert (Hcount : length (map toItem successful) = (length files - 1)%nat).
  { rewrite length_map. apply (@successful_count h files f); try assumption.
    apply listHtmlFiles_NoDup. }
  exists (map (processFile h) files),
         {| generatedAt := nowIndex; source := SRC_DIR cfg;
            pages := map toPage successful |},
         (map toItem successful),
         (generateLLMTextStream h nowCorpus (map toItem successful)
                                (SRC_DIR cfg)).
  split; [now apply runTasks_complete|].
  split; [apply map_path_processFile|].
  split.
  { intros e He Hp. apply in_map_iff in He as [g [<- Hg]]. simpl in Hp.
    subst g. now apply read_failed_fields. }
  split.
  { apply main_completes; try assumption.
    fold files. intros E. rewrite E in Hin. contradiction. }
  split; [reflexivity|].
  split.
  { intros g. rewrite map_map. simpl. rewrite in_map_iff. split.
    - intros [e [<- He]]. apply successful_In in He as [He Hok].
      apply in_map_iff in He as [g [<- Hg]]. simpl. split; [exact Hg|].
      intros ->. congruence.
    - intros [Hg Hne]. exists (processFile h g). split; [reflexivity|].
      apply successful_In. split; [now apply in_map|now apply Hpass]. }
  split; [exact Hcount|].
  split.
  { intros it Hit. apply in_map_iff in Hit as [e [<- He]].
    apply successful_In in He as [He _].
    apply in_map_iff in He as [g [<- _]]. reflexivity. }
  split.
  { unfold generateLLMTextStream. rewrite length_app, length_sections, Hcount.
    reflexivity. }
  intros g html Hg Hne Hhtml extractedText.
  assert (Hsucc : In (processFile h g) successful).
  { apply successful_In. split; [now apply in_map|now apply Hpass]. }
  apply In_nth_error in Hsucc as [i Hi].
  assert (Hitem : nth_error (map toItem successful) i
                  = Some (toItem (processFile h g)))
    by (now apply map_nth_error).
  assert (Heq : toItem (processFile h g) =
                {| it_path := g;
                   it_text := extractedText;
                   it_size := match stat h g with
                              | Some s => s
                              | None => 0
                              end;
                   it_textLength := len extractedText |}).
  { rewrite (toItem_read_ok h g Hhtml). unfold extractedText.
    destruct (blank html) eqn:Hb.
    - apply blank_spec in Hb. rewrite Hb. reflexivity.
    - destruct (forallb is_space html) eqn:E; [|reflexivity].
      apply blank_spec in E. congruence. }
  rewrite Heq in Hitem.
  exists i. split; [exact Hitem|].
  destruct (sections_at h _ i Hitem) as [H0 H1]. simpl in H0, H1.
  unfold generateLLMTextStream.
  change (4 + 2 * i)%nat with (S (S (S (S (2 * i))))).
  change (5 + 2 * i)%nat with (S (S (S (S (1 + 2 * i))))).
  split; [exact H0|exact H1].
Qed.

Lemma read_failure_isolated_witness :
  exists (extracted : list Extracted) (index : IndexFile) (items : list Item)
         (corpus : list jsstr),
    runTasks Sample.host
      (listHtmlFiles Sample.host [Sample.b_html; Sample.a_html])
      [1%nat; 0%nat] = Some extracted /\
    map path extracted
      = listHtmlFiles Sample.host [Sample.b_html; Sample.a_html] /\
    (forall e, In e extracted -> path e = Sample.b_html ->
               error e = Some Sample.denied) /\
    main Sample.host Sample.config [Sample.b_html; Sample.a_html]
         [1%nat; 0%nat] (lit "T1") (lit "T2") = Done index corpus /\
    corpus =
      [ lit "Generated: " ++ lit "T2" ++ NL;
        lit "Source directory: " ++ SRC_DIR Sample.config ++ NL;
        lit "Files processed: " ++ toString (N.of_nat (length items))
          ++ NL ++ NL;
        makeTocSection Sample.host items (SRC_DIR Sample.config) ++ NL ]
      ++ flat_map (sectionChunks Sample.host) items /\
    (forall g, In g (map it_path items) <->
               In g (listHtmlFiles Sample.host [Sample.b_html; Sample.a_html])
               /\ g <> Sample.b_html) /\
    length items
      = (length (listHtmlFiles Sample.host [Sample.b_html; Sample.a_html])
         - 1)%nat /\
    (forall it, In it items ->
                it_text it
                = xr_text (extractTextFromHTML Sample.host (it_path it))) /\
    length corpus
      = (4 + 2 * (length (listHtmlFiles Sample.host
                            [Sample.b_html; Sample.a_html]) - 1))%nat /\
    (forall g html,
        In g (listHtmlFiles Sample.host [Sample.b_html; Sample.a_html]) ->
        g <> Sample.b_html ->
        readFile Sample.host g = inl html ->
        let extractedText :=
          if forallb is_space html then []
          else normalize (selectText (cheerio Sample.host html)) in
        exists i,
          nth_error items i =
            Some {| it_path := g;
                    it_text := extractedText;
                    it_size := match stat Sample.host g with
                               | Some s => s
                               | None => 0
                               end;
                    it_textLength := len extractedText |} /\
          nth_error corpus (4 + 2 * i) =
            Some (makeFileHeader (Path.relative (cwd Sample.host) g) ++ NL) /\
          nth_error corpus (5 + 2 * i) =
            Some (match extractedText with
                  | [] => lit "[No extractable text]" ++ NL ++ NL
                  | _ :: _ => extractedText ++ NL ++ NL
                  end)).
Proof.
  apply (@read_failure_isolated Sample.host Sample.config
           [Sample.b_html; Sample.a_html] [1%nat; 0%nat]
           (lit "T1") (lit "T2") Sample.b_html Sample.denied).
  - reflexivity.
  - discriminate.
  - vm_compute. apply perm_swap.
  - vm_compute. right. now left.
  - reflexivity.
  - discriminate.
  - intros g Hg Hne. vm_compute in Hg. destruct Hg as [<-|[<-|[]]].
    + eexists. reflexivity.
    + exfalso. now apply Hne.
Defined.

(** C1, where the code departs from it.  In a run where one file among those
    found cannot be read while the others can, the Executor returns one
    result per file, but the index is built from the successful results
    only: it holds one record fewer than there are files, and the error of
    every record it holds is null, so the failed file is not recorded. *)
Theorem index_omits_failed_file (h : Host) (cfg : Config)
  (globbed : list jsstr) (order : list nat) (nowIndex nowCorpus : jsstr)
  (f message : jsstr) :
  pathExists h (SRC_DIR cfg) = true ->
  concurrency cfg <> 0 ->
  Permutation (seq 0 (length (listHtmlFiles h globbed))) order ->
  In f (listHtmlFiles h globbed) ->
  readFile h f = inr message ->
  message <> [] ->
  (forall g, In g (listHtmlFiles h globbed) -> g <> f ->
             exists html, readFile h g = inl html) ->
  exists (extracted : list Extracted) (index : IndexFile)
         (corpus : list jsstr),
    runTasks h (listHtmlFiles h globbed) order = Some extracted /\
    length extracted = length (listHtmlFiles h globbed) /\
    main h cfg globbed order nowIndex nowCorpus = Done index corpus /\
    length (pages index) = (length (listHtmlFiles h globbed) - 1)%nat /\
    Forall (fun p => pg_error p = None) (pages index).
Proof.
  intros Hsrc Hk Horder Hin Hread Hmsg Hothers.
  set (files := listHtmlFiles h globbed) in *.
  set (successful :=
         successfulExtractions (sortExtracted h (map (processFile h) files))).
  exists (map (processFile h) files),
         {| generatedAt := nowIndex; source := SRC_DIR cfg;
            pages := map toPage successful |},
         (generateLLMTextStream h nowCorpus (map toItem successful)
                                (SRC_DIR cfg)).
  split; [now apply runTasks_complete|].
  split; [apply length_map|].
  split.
  { apply main_completes; try assumption.
    fold files. intros E. rewrite E in Hin. contradiction. }
  simpl. split.
  - rewrite length_map. apply (@successful_count h files f); try assumption.
    + apply listHtmlFiles_NoDup.
    + eapply noError_read_failed; eauto.
    + intros g Hg Hne. destruct (Hothers g Hg Hne) as [html Hhtml].
      now apply (processFile_read_ok h g Hhtml).
  - apply Forall_forall. intros p Hp. apply in_map_iff in Hp as [e [<- He]].
    simpl. now apply successful_error_null in He.
Qed.

Lemma index_omits_failed_file_witness :
  exists (extracted : list Extracted) (index : IndexFile)
         (corpus : list jsstr),
    runTasks Sample.host
      (listHtmlFiles Sample.host [Sample.a_html; Sample.b_html])
      [0%nat; 1%nat] = Some extracted /\
    length extracted
      = length (listHtmlFiles Sample.host [Sample.a_html; Sample.b_html]) /\
    main Sample.host Sample.config [Sample.a_html; Sample.b_html]
         [0%nat; 1%nat] (lit "T1") (lit "T2") = Done index corpus /\
    length (pages index)
      = (length (listHtmlFiles Sample.host [Sample.a_html; Sample.b_html])
         - 1)%nat /\
    Forall (fun p => pg_error p = None) (pages index).
Proof.
  apply (@index_omits_failed_file Sample.host Sample.config
           [Sample.a_html; Sample.b_html] [0%nat; 1%nat]
           (lit "T1") (lit "T2") Sample.b_html Sample.denied).
  - reflexivity.
  - discriminate.
  - vm_compute. reflexivity.
  - vm_compute. right. now left.
  - reflexivity.
  - discriminate.
  - intros g Hg Hne. vm_compute in Hg. destruct Hg as [<-|[<-|[]]].
    + eexists. reflexivity.
    + exfalso. now apply Hne.
Defined.

(** ** The Aggregator *)

Lemma caseBlind_consistent : consistentComparator Sample.caseBlindCompare.
Proof.
  destruct defaultCompare_consistent as [Ht Htr].
  split; unfold Sample.caseBlindCompare.
  - intros a b. apply Ht.
  - intros a b c. apply Htr.
Qed.

(** C5, as the code has it.  The Aggregator sorts the results by their path
    relative to the working directory with the comparison of the host's
    locale: when that comparison orders, the sorted list is in its order,
    and in any case it is a rearrangement of the Executor's results; the
    successful view is the sorted list without the results that carry an
    error, and nothing else is changed. *)
Theorem aggregator_contract (h : Host) (files : list jsstr) :
  consistentComparator (localeCompare h) ->
  let extracted := map (processFile h) files in
  let sorted := sortExtracted h extracted in
  map rel extracted = map (Path.relative (cwd h)) files /\
  Permutation extracted sorted /\
  sortedBy (fun a b => localeCompare h (rel a) (rel b)) sorted /\
  successfulExtractions sorted = filter noError sorted /\
  (forall e, In e (successfulExtractions sorted) <->
             In e extracted /\ error e = None).
Proof.
  intros Hcmp extracted sorted.
  split; [unfold extracted; rewrite map_map; reflexivity|].
  split; [apply sortWith_perm|].
  split.
  { apply sortWith_sorted. destruct Hcmp as [Ht Htr]. split.
    - intros a b. apply Ht.
    - intros a b c. apply Htr. }
  split; [reflexivity|].
  intros e. unfold sorted. rewrite successful_In. split.
  - intros [Hin Hok]. split; [exact Hin|].
    eapply successful_error_null. apply successful_In. split; eauto.
  - intros [Hin He]. split; [exact Hin|]. unfold noError. now rewrite He.
Qed.

Lemma aggregator_contract_witness :
  let extracted :=
    map (processFile Sample.hostCaseBlind) [Sample.B_html; Sample.a_html] in
  let sorted := sortExtracted Sample.hostCaseBlind extracted in
  map rel extracted
    = map (Path.relative (cwd Sample.hostCaseBlind))
          [Sample.B_html; Sample.a_html] /\
  Permutation extracted sorted /\
  sortedBy (fun a b => localeCompare Sample.hostCaseBlind (rel a) (rel b))
           sorted /\
  successfulExtractions sorted = filter noError sorted /\
  (forall e, In e (successfulExtractions sorted) <->
             In e extracted /\ error e = None).
Proof.
  apply (@aggregator_contract Sample.hostCaseBlind
           [Sample.B_html; Sample.a_html]).
  exact caseBlind_consistent.
Defined.

(** C5, as the specification words it, fails: under a comparison that
    ignores the case of letters, [a.html] is placed before [B.html], which
    is not the order of their code units. *)
Lemma aggregator_order_counterexample :
  ~ (forall (h : Host) (files : list jsstr),
        consistentComparator (localeCompare h) ->
        sortedBy defaultCompare
          (map rel (sortExtracted h (map (processFile h) files)))).
Proof.
  intros H.
  specialize (H Sample.hostCaseBlind [Sample.B_html; Sample.a_html]
                caseBlind_consistent).
  vm_compute in H. inversion H as [|? ? _ Hall]; subst.
  inversion Hall as [|? ? Hle _]; subst.
  apply Hle. reflexivity.
Qed.

(** ** Determinism *)

(** C9.  Two runs on the same host and configuration, over the same set of
    files found (whatever the order [glob] lists them in), each with its own
    completion order of the tasks and its own clock, end the same way; when
    they complete, their index objects agree on the source and on the pages,
    and their corpus streams agree on every chunk after the first, which is
    the line of the generation timestamp. *)
Theorem run_deterministic (h : Host) (cfg : Config) (g1 g2 : list jsstr)
  (o1 o2 : list nat) (nowIndex1 nowCorpus1 nowIndex2 nowCorpus2 : jsstr) :
  (forall f, In f g1 <-> In f g2) ->
  Permutation (seq 0 (length (listHtmlFiles h g1))) o1 ->
  Permutation (seq 0 (length (listHtmlFiles h g2))) o2 ->
  match main h cfg g1 o1 nowIndex1 nowCorpus1,
        main h cfg g2 o2 nowIndex2 nowCorpus2 with
  | Done index1 corpus1, Done index2 corpus2 =>
      source index1 = source index2 /\
      pages index1 = pages index2 /\
      hd [] corpus1 = lit "Generated: " ++ nowCorpus1 ++ NL /\
      hd [] corpus2 = lit "Generated: " ++ nowCorpus2 ++ NL /\
      tl corpus1 = tl corpus2
  | Fatal message1, Fatal message2 => message1 = message2
  | _, _ => False
  end.
Proof.
  intros Hsame Ho1 Ho2. unfold main.
  rewrite <- (@listHtmlFiles_order_free h g1 g2 Hsame) in *.
  destruct (pathExists h (SRC_DIR cfg)); simpl; [|reflexivity].
  rewrite (@runTasks_complete h _ _ Ho1), (@runTasks_complete h _ _ Ho2).
  destruct (listHtmlFiles h g1) as [|f files]; [reflexivity|].
  destruct (concurrency cfg =? 0); [reflexivity|].
  simpl. repeat split.
Qed.

Lemma run_deterministic_witness :
  match main Sample.host Sample.config [Sample.a_html; Sample.b_html]
             [0%nat; 1%nat] (lit "T1") (lit "T2"),
        main Sample.host Sample.config
             [Sample.b_html; Sample.a_html; Sample.b_html]
             [1%nat; 0%nat] (lit "T3") (lit "T4") with
  | Done index1 corpus1, Done index2 corpus2 =>
      source index1 = source index2 /\
      pages index1 = pages index2 /\
      hd [] corpus1 = lit "Generated: " ++ lit "T2" ++ NL /\
      hd [] corpus2 = lit "Generated: " ++ lit "T4" ++ NL /\
      tl corpus1 = tl corpus2
  | Fatal message1, Fatal message2 => message1 = message2
  | _, _ => False
  end.
Proof.
  apply (@run_deterministic Sample.host Sample.config
           [Sample.a_html; Sample.b_html]
           [Sample.b_html; Sample.a_html; Sample.b_html]
           [0%nat; 1%nat] [1%nat; 0%nat]).
  - intros f. simpl. tauto.
  - vm_compute. reflexivity.
  - vm_compute. apply perm_swap.
Defined.

(** ** Section paths and table paths *)




(** * Further properties of the code *)

(** ** The normaliser, stage by stage *)

Lemma collapse_from_length (b : bool) (s : jsstr) :
  (length (collapse_from b s) <= length s)%nat.
Proof.
  revert b; induction s as [|c r IH]; intros b; simpl; [lia|].
  pose proof (IH true). pose proof (IH false).
  destruct (is_space c); [destruct b|]; simpl; lia.
Qed.

Lemma strip_from_length (o c : code_unit) (m : bool) (s : jsstr) :
  (length (strip_from o c m s) <= length s)%nat.
Proof.
  revert m; induction s as [|y r IH]; intros m; simpl; [lia|].
  pose proof (IH true). pose proof (IH false).
  destruct m; [destruct (y =? c)|destruct ((y =? o) && closes_ahead c r)];
    simpl; lia.
Qed.

Lemma trim_length (s : jsstr) : (length (trim s) <= length s)%nat.
Proof.
  destruct (trim_infix s) as [p [q H]].
  rewrite H at 2. rewrite !length_app. lia.
Qed.

(** X7.  The normaliser never lengthens a text: the text length recorded for a
    file is at most the length of the text selected from its markup. *)
Theorem normalize_never_longer (h : Host) (f html : jsstr) :
  readFile h f = inl html ->
  (forall text, len (normalize text) <= len text) /\
  textLength (processFile h f) <= len (selectText (cheerio h html)).
Proof.
  intros Hread.
  assert (Hn : forall text, len (normalize text) <= len text).
  { intros text. unfold len, normalize, stripDelimited, collapseWhitespace.
    pose proof (collapse_from_length false text) as H1.
    pose proof (strip_from_length LBRACKET RBRACKET false
                  (collapse_from false text)) as H2.
    pose proof (strip_from_length LBRACE RBRACE false
                  (strip_from LBRACKET RBRACKET false
                     (collapse_from false text))) as H3.
    pose proof (trim_length
                  (strip_from LBRACE RBRACE false
                     (strip_from LBRACKET RBRACKET false
                        (collapse_from false text)))) as H4.
    lia. }
  split; [exact Hn|].
  unfold processFile, extractTextFromHTML. simpl. rewrite Hread.
  destruct (blank html); simpl; [|apply Hn].
  unfold len. simpl. lia.
Qed.

Lemma normalize_never_longer_witness :
  (forall text, len (normalize text) <= len text) /\
  textLength (processFile Sample.host Sample.a_html)
  <= len (selectText (cheerio Sample.host Sample.helloMarkup)).
Proof.
  apply (@normalize_never_longer Sample.host Sample.a_html Sample.helloMarkup).
  reflexivity.
Defined.

Lemma closes_ahead_absent (c : code_unit) (s : jsstr) :
  ~ In c s -> closes_ahead c s = false.
Proof.
  induction s as [|y r IH]; simpl; [reflexivity|].
  intros H. destruct (y =? c) eqn:E.
  - apply N.eqb_eq in E. exfalso. apply H. now left.
  - destruct (is_line_terminator y); [reflexivity|].
    apply IH. intros Hin. apply H. now right.
Qed.

(** X5.  An opening delimiter that no closing delimiter follows is kept: a text
    without any closing delimiter goes through the removal unchanged. *)
Theorem unclosed_fragment_kept (open close : code_unit) (s : jsstr) :
  ~ In close s -> stripDelimited open close s = s.
Proof.
  unfold stripDelimited. induction s as [|y r IH]; simpl; [reflexivity|].
  intros H.
  rewrite (closes_ahead_absent close r) by (intros Hin; apply H; now right).
  rewrite andb_false_r. f_equal. apply IH. intros Hin. apply H. now right.
Qed.

Lemma unclosed_fragment_kept_witness :
  stripDelimited LBRACKET RBRACKET (lit "see [1 and [2")
  = lit "see [1 and [2".
Proof.
  apply (@unclosed_fragment_kept LBRACKET RBRACKET (lit "see [1 and [2")).
  vm_compute. intuition discriminate.
Defined.

Lemma closes_ahead_found (c : code_unit) (m rest : jsstr) :
  forallb (fun x => negb (is_line_terminator x)) m = true ->
  closes_ahead c (m ++ c :: rest) = true.
Proof.
  induction m as [|y m IH]; simpl.
  - now rewrite N.eqb_refl.
  - intros H. apply andb_true_iff in H as [Hy Hm].
    destruct (y =? c); [reflexivity|].
    apply negb_true_iff in Hy. rewrite Hy. now apply IH.
Qed.

Lemma strip_from_skips (o c : code_unit) (m rest : jsstr) :
  ~ In c m ->
  strip_from o c true (m ++ c :: rest) = strip_from o c false rest.
Proof.
  induction m as [|y m IH]; simpl; intros H.
  - now rewrite N.eqb_refl.
  - destruct (y =? c) eqn:E.
    + apply N.eqb_eq in E. exfalso. apply H. now left.
    + apply IH. intros Hin. apply H. now right.
Qed.

(** X4.  The removal is non-greedy: the first opening delimiter of a text starts
    a fragment that ends at the first closing delimiter after it (when no
    line terminator lies between them); what precedes the fragment is kept
    and the removal goes on after it. *)
Theorem first_fragment_removed (open close : code_unit)
  (before inside after : jsstr) :
  ~ In open before ->
  ~ In close inside ->
  forallb (fun x => negb (is_line_terminator x)) inside = true ->
  stripDelimited open close (before ++ open :: inside ++ close :: after)
  = before ++ stripDelimited open close after.
Proof.
  intros Hb Hi Hlt. unfold stripDelimited.
  induction before as [|y before IH]; simpl.
  - rewrite N.eqb_refl, (closes_ahead_found close inside after Hlt). simpl.
    now apply strip_from_skips.
  - destruct (y =? open) eqn:E.
    + apply N.eqb_eq in E. exfalso. apply Hb. now left.
    + simpl. f_equal. apply IH. intros Hin. apply Hb. now right.
Qed.

Lemma first_fragment_removed_witness :
  stripDelimited LBRACKET RBRACKET
    (lit "a " ++ LBRACKET :: lit "1[2" ++ RBRACKET :: lit " b]")
  = lit "a " ++ stripDelimited LBRACKET RBRACKET (lit " b]").
Proof.
  apply (@first_fragment_removed LBRACKET RBRACKET (lit "a ") (lit "1[2")
           (lit " b]")).
  - vm_compute. intuition discriminate.
  - vm_compute. intuition discriminate.
  - reflexivity.
Defined.

Lemma collapse_from_In (b : bool) (s : jsstr) (x : code_unit) :
  In x (collapse_from b s) -> In x s \/ x = SPACE.
Proof.
  revert b; induction s as [|c r IH]; intros b; simpl; [tauto|].
  destruct (is_space c).
  - destruct b; simpl.
    + intros H. destruct (IH _ H); auto.
    + intros [H|H]; [now right|]. destruct (IH _ H); auto.
  - simpl. intros [H|H]; [now left; left|]. destruct (IH _ H); auto.
Qed.

Lemma trim_infix_spaces (s : jsstr) :
  exists p q, s = p ++ trim s ++ q /\
              forallb is_space p = true /\ forallb is_space q = true.
Proof.
  destruct (trimStart_suffix s) as [p [Hp Hps]].
  destruct (trimEnd_prefix (trimStart s)) as [q [Hq Hqs]].
  exists p, q. unfold trim. rewrite <- Hq. auto.
Qed.

Lemma ink_spaces (p : jsstr) : forallb is_space p = true -> ink p = [].
Proof.
  unfold ink. induction p as [|c p IH]; simpl; [reflexivity|].
  intros H. apply andb_true_iff in H as [Hc Hp]. rewrite Hc. simpl. auto.
Qed.

Lemma ink_trim (s : jsstr) : ink (trim s) = ink s.
Proof.
  destruct (trim_infix_spaces s) as [p [q [H [Hp Hq]]]].
  rewrite H at 2. unfold ink. rewrite !filter_app.
  fold (ink p) (ink q) (ink (trim s)).
  rewrite (ink_spaces p Hp), (ink_spaces q Hq). simpl. now rewrite app_nil_r.
Qed.

Lemma infix_noSpaceRun (p s q : jsstr) :
  noSpaceRun (p ++ s ++ q) -> noSpaceRun s.
Proof.
  intros H l1 l2 Hs. subst s. apply (H (p ++ l1) (l2 ++ q)).
  rewrite <- !app_assoc. reflexivity.
Qed.

(** X6.  On a text without an opening bracket or brace the normaliser only
    collapses and trims: the result has no two spaces in a row and keeps
    every code unit that is not whitespace, in order. *)
Theorem plain_text_normalized (text : jsstr) :
  ~ In LBRACKET text ->
  ~ In LBRACE text ->
  normalize text = trim (collapseWhitespace text) /\
  noSpaceRun (normalize text) /\
  ink (normalize text) = ink text.
Proof.
  intros Hb Hk.
  assert (Hc : forall x, x <> SPACE -> ~ In x text ->
                         ~ In x (collapseWhitespace text)).
  { intros x Hx Hin H. apply collapse_from_In in H as [H|H]; auto. }
  assert (E : normalize text = trim (collapseWhitespace text)).
  { unfold normalize, stripDelimited.
    rewrite (strip_from_id LBRACKET RBRACKET)
      by (apply Hc; [discriminate|exact Hb]).
    rewrite (strip_from_id LBRACE RBRACE)
      by (apply Hc; [discriminate|exact Hk]).
    reflexivity. }
  rewrite E. split; [reflexivity|]. split.
  - destruct (trim_infix (collapseWhitespace text)) as [p [q H]].
    apply (@infix_noSpaceRun p _ q). rewrite <- H.
    apply collapse_from_runs.
  - rewrite ink_trim. apply collapse_from_ink.
Qed.

Lemma plain_text_normalized_witness :
  normalize (lit "  two   words ") = trim (collapseWhitespace (lit "  two   words ")) /\
  noSpaceRun (normalize (lit "  two   words ")) /\
  ink (normalize (lit "  two   words ")) = ink (lit "  two   words ").
Proof.
  apply (@plain_text_normalized (lit "  two   words ")).
  - vm_compute. intuition discriminate.
  - vm_compute. intuition discriminate.
Defined.

(** ** What a task returns *)

Lemma noFragment_nil (o c : code_unit) : noFragment o c [].
Proof. intros [|? ?] ? ?; discriminate. Qed.

Lemma trimmed_nil : trimmed [].
Proof.
  split; [discriminate|]. intros [|? ?] ? ?; discriminate.
Qed.

(** X8.  Whatever the file, the text a task returns is in normal form: its only
    whitespace is the plain space (so it holds no line break), neither end
    is whitespace, and it holds no bracket or brace fragment; its recorded
    length and hash are those of that text. *)
Theorem task_text_normal (h : Host) (f : jsstr) :
  let e := processFile h f in
  plainSpaces (text e) /\ trimmed (text e) /\
  noFragment LBRACKET RBRACKET (text e) /\
  noFragment LBRACE RBRACE (text e) /\
  ~ In 10 (text e) /\
  textLength e = len (text e) /\ hash e = sha256 h (text e).
Proof.
  assert (H : plainSpaces (text (processFile h f)) /\
              trimmed (text (processFile h f)) /\
              noFragment LBRACKET RBRACKET (text (processFile h f)) /\
              noFragment LBRACE RBRACE (text (processFile h f))).
  { unfold processFile, extractTextFromHTML. simpl.
    destruct (readFile h f) as [html|message]; [destruct (blank html)|];
      simpl; try apply normalize_shape;
      (split; [constructor|]); (split; [apply trimmed_nil|]);
      split; apply noFragment_nil. }
  destruct H as [H1 [H2 [H3 H4]]]. simpl.
  repeat split; try assumption; try apply H2.
  intros Hin. unfold plainSpaces in H1. rewrite Forall_forall in H1.
  specialize (H1 _ Hin eq_refl). discriminate H1.
Qed.

Lemma processFile_error (h : Host) (f : jsstr) :
  error (processFile h f) =
  match readFile h f with
  | inl _ => None
  | inr [] => None
  | inr (c :: m) => Some (c :: m)
  end.
Proof.
  unfold processFile, extractTextFromHTML. simpl.
  destruct (readFile h f) as [html|[|c m]]; [destruct (blank html)| |];
    reflexivity.
Qed.

(** X9.  A task reports a failure exactly when the read failed with a message
    that is not empty; the error it reports is then that message, and it is
    never the empty string. *)
Theorem task_error_criterion (h : Host) (f : jsstr) :
  (error (processFile h f) = None <->
   (exists html, readFile h f = inl html) \/ readFile h f = inr []) /\
  (forall message, error (processFile h f) = Some message <->
                   readFile h f = inr message /\ message <> []) /\
  (noError (processFile h f) = true <-> error (processFile h f) = None).
Proof.
  unfold noError. rewrite processFile_error.
  destruct (readFile h f) as [html|[|c m]] eqn:E.
  - split; [|split].
    + split; [intros _; left; now exists html|reflexivity].
    + intros message. split; [discriminate|intros [H _]; discriminate H].
    + tauto.
  - split; [|split].
    + split; [intros _; now right|reflexivity].
    + intros message. split; [discriminate|].
      intros [H1 H2]. injection H1 as <-. congruence.
    + tauto.
  - split; [|split].
    + split; [discriminate|intros [[html H]|H]; discriminate H].
    + intros message. split.
      * intros H. injection H as <-. split; [reflexivity|discriminate].
      * intros [H _]. now injection H as <-.
    + split; discriminate.
Qed.

(** X10.  A file whose content is empty or only whitespace is a success with the
    empty text: no error, text length 0, the hash of the empty string, and
    a corpus section whose body is the no-text sentence. *)
Theorem blank_file_is_success (h : Host) (f html : jsstr) :
  readFile h f = inl html ->
  forallb is_space html = true ->
  let e := processFile h f in
  error e = None /\ noError e = true /\ text e = [] /\
  textLength e = 0 /\ hash e = sha256 h [] /\
  sectionChunks h (toItem e) =
    [ makeFileHeader (rel e) ++ NL;
      lit "[No extractable text]" ++ NL ++ NL ].
Proof.
  intros Hread Hblank. apply blank_spec in Hblank.
  unfold noError, sectionChunks, toItem, processFile, extractTextFromHTML.
  simpl. rewrite Hread, Hblank. simpl. repeat split.
Qed.

Lemma blank_file_is_success_witness :
  let e := processFile Sample.host Sample.blank_html in
  error e = None /\ noError e = true /\ text e = [] /\
  textLength e = 0 /\ hash e = sha256 Sample.host [] /\
  sectionChunks Sample.host (toItem e) =
    [ makeFileHeader (rel e) ++ NL;
      lit "[No extractable text]" ++ NL ++ NL ].
Proof.
  apply (@blank_file_is_success Sample.host Sample.blank_html
           [SPACE; SPACE; 10]); reflexivity.
Defined.

(** ** Main-content selection *)

(** X3.  The selected text is always the text of one of the selectors; it has
    more than 50 code units once trimmed, or else no selector had and it is
    the text of body. *)
Theorem selected_text_origin (doc : jsstr -> jsstr) :
  In (selectText doc) (map doc selectors) /\
  (qualifies (selectText doc) = true \/
   (forallb (fun sel => negb (qualifies (doc sel))) selectors = true /\
    selectText doc = doc (lit "body"))).
Proof.
  rewrite selectText_find.
  destruct (find (fun sel => qualifies (doc sel)) selectors) as [sel|] eqn:E.
  - apply find_some in E as [Hin Hq]. split; [now apply in_map|now left].
  - split.
    + apply in_map. unfold selectors. simpl. intuition.
    + right. split; [|reflexivity]. apply forallb_forall. intros sel Hsel.
      apply negb_true_iff. exact (find_none _ _ E sel Hsel).
Qed.

(** ** File discovery *)

(** X1.  The file list holds exactly the resolved paths that [glob] returned,
    each once, in the order of their code units. *)
Theorem discovered_files_contract (h : Host) (globbed : list jsstr) :
  NoDup (listHtmlFiles h globbed) /\
  (forall f, In f (listHtmlFiles h globbed) <->
             exists g, In g globbed /\ resolve h g = f) /\
  sortedBy defaultCompare (listHtmlFiles h globbed).
Proof.
  split; [apply listHtmlFiles_NoDup|]. split.
  - intros f. rewrite listHtmlFiles_In, in_map_iff. split.
    + intros [g [Hg Hin]]. now exists g.
    + intros [g [Hin Hg]]. now exists g.
  - apply sortWith_sorted. apply defaultCompare_consistent.
Qed.

(** X2.  Two listings by [glob] that list the same paths, in any order and with
    any repetitions, give the same file list. *)
Theorem discovery_order_free (h : Host) (g1 g2 : list jsstr) :
  (forall f, In f g1 <-> In f g2) ->
  listHtmlFiles h g1 = listHtmlFiles h g2.
Proof. apply listHtmlFiles_order_free. Qed.

Lemma discovery_order_free_witness :
  listHtmlFiles Sample.host [Sample.b_html; Sample.a_html; Sample.b_html]
  = listHtmlFiles Sample.host [Sample.a_html; Sample.b_html].
Proof.
  apply (@discovery_order_free Sample.host
           [Sample.b_html; Sample.a_html; Sample.b_html]
           [Sample.a_html; Sample.b_html]).
  intros f. simpl. tauto.
Defined.

(** ** When a run completes *)

Section PromiseAllConverse.
Variable A : Type.
Variable values : list A.

Lemma fold_settle_untouched (order : list nat) (slots : list (option A))
  (j : nat) :
  ~ In j order ->
  nth_error (fold_left (settle values) order slots) j = nth_error slots j.
Proof.
  revert slots; induction order as [|i order IH]; intros slots Hj; simpl.
  - reflexivity.
  - rewrite IH by (intros H; apply Hj; now right).
    unfold settle. destruct (nth_error values i); [|reflexivity].
    apply nth_fillSlot_other. intros ->. apply Hj. now left.
Qed.

Lemma allFilled_no_gap (slots : list (option A)) (xs : list A) (j : nat) :
  allFilled slots = Some xs -> nth_error slots j <> Some None.
Proof.
  revert xs j; induction slots as [|[x|] r IH]; intros xs j H; simpl in *.
  - destruct j; discriminate.
  - destruct (allFilled r) as [ys|] eqn:E; [|discriminate].
    destruct j; simpl; [discriminate|]. now apply (IH ys).
  - discriminate.
Qed.

Lemma allFilled_agree (slots : list (option A)) (xs : list A) :
  slotsAgree values slots -> allFilled slots = Some xs -> xs = values.
Proof.
  intros [Hlen Hval]. revert slots xs Hlen Hval.
  induction values as [|v vs IH]; intros [|[x|] r] xs Hlen Hval H;
    simpl in *; try discriminate.
  - now injection H as <-.
  - destruct (allFilled r) as [ys|] eqn:E; [|discriminate].
    injection H as <-.
    pose proof (Hval 0%nat x eq_refl) as H0. simpl in H0. injection H0 as ->.
    f_equal. apply (IH r); [lia| |exact E].
    intros j y Hj. exact (Hval (S j) y Hj).
Qed.

Lemma promiseAll_values (order : list nat) (xs : list A) :
  promiseAll values order = Some xs -> xs = values.
Proof.
  unfold promiseAll. intros H.
  destruct (fold_settle order (slotsAgree_empty values)) as [Hagree _].
  now apply (allFilled_agree Hagree).
Qed.

Lemma promiseAll_waits (order : list nat) (xs : list A) (j : nat) :
  promiseAll values order = Some xs ->
  (j < length values)%nat -> In j order.
Proof.
  unfold promiseAll. intros H Hj.
  destruct (in_dec Nat.eq_dec j order) as [Hin|Hout]; [exact Hin|].
  exfalso. apply (allFilled_no_gap _ j H).
  rewrite fold_settle_untouched by exact Hout.
  apply nth_error_repeat. exact Hj.
Qed.
End PromiseAllConverse.

(** What a completed run wrote, in terms of the successful results. *)
Lemma main_done_inv (h : Host) (cfg : Config) (globbed : list jsstr)
  (order : list nat) (nowIndex nowCorpus : jsstr)
  (index : IndexFile) (corpus : list jsstr) :
  main h cfg globbed order nowIndex nowCorpus = Done index corpus ->
  let successful :=
    successfulExtractions
      (sortExtracted h (map (processFile h) (listHtmlFiles h globbed))) in
  pathExists h (SRC_DIR cfg) = true /\
  listHtmlFiles h globbed <> [] /\
  concurrency cfg <> 0 /\
  (forall j, (j < length (listHtmlFiles h globbed))%nat -> In j order) /\
  index = {| generatedAt := nowIndex; source := SRC_DIR cfg;
             pages := map toPage successful |} /\
  corpus = generateLLMTextStream h nowCorpus (map toItem successful)
                                 (SRC_DIR cfg).
Proof.
  unfold main. intros H.
  destruct (pathExists h (SRC_DIR cfg)); simpl in H; [|discriminate].
  destruct (listHtmlFiles h globbed) as [|f files] eqn:Efiles;
    [discriminate|].
  destruct (concurrency cfg =? 0) eqn:Ek; [discriminate|].
  destruct (runTasks h (f :: files) order) as [extracted|] eqn:Erun;
    [|discriminate].
  unfold runTasks in Erun.
  pose proof (promiseAll_values _ _ Erun) as ->.
  injection H as <- <-.
  split; [reflexivity|]. split; [discriminate|].
  split; [now apply N.eqb_neq|]. split; [|split; reflexivity].
  intros j Hj. apply (promiseAll_waits _ _ Erun).
  now rewrite length_map.
Qed.

(** X11.  A run whose source directory does not exist is fatal before any
    file is looked for, and a run that finds no file is fatal with the
    message that no HTML files were found.  A run that completes, writing
    the index and the corpus, had an existing source directory, found at
    least one file and saw every task settle: it never completes on the
    results of a part of the tasks. *)
Theorem run_preconditions (h : Host) (cfg : Config) (globbed : list jsstr)
  (order : list nat) (nowIndex nowCorpus : jsstr) :
  (pathExists h (SRC_DIR cfg) = false ->
   main h cfg globbed order nowIndex nowCorpus
   = Fatal (lit "Source directory does not exist: " ++ SRC_DIR cfg)) /\
  (pathExists h (SRC_DIR cfg) = true ->
   listHtmlFiles h globbed = [] ->
   main h cfg globbed order nowIndex nowCorpus
   = Fatal (lit "No HTML files found.")) /\
  (forall index corpus,
     main h cfg globbed order nowIndex nowCorpus = Done index corpus ->
     pathExists h (SRC_DIR cfg) = true /\
     listHtmlFiles h globbed <> [] /\
     (forall j, (j < length (listHtmlFiles h globbed))%nat -> In j order)).
Proof.
  split; [|split].
  - intros H. unfold main. now rewrite H.
  - intros H E. unfold main. now rewrite H, E.
  - intros index corpus H. apply main_done_inv in H. tauto.
Qed.

Lemma run_preconditions_witness :
  pathExists Sample.host (SRC_DIR Sample.config) = true /\
  listHtmlFiles Sample.host [Sample.a_html; Sample.b_html] <> [] /\
  (forall j,
      (j < length (listHtmlFiles Sample.host
                     [Sample.a_html; Sample.b_html]))%nat ->
      In j [0%nat; 1%nat]).
Proof.
  apply (proj2 (proj2 (@run_preconditions Sample.host Sample.config
                         [Sample.a_html; Sample.b_html] [0%nat; 1%nat]
                         (lit "T1") (lit "T2")))
           SampleRun.index SampleRun.corpus).
  vm_compute. reflexivity.
Defined.

(** ** The two artifacts of a completed run *)

Lemma Forall2_map_same (A B C : Type) (R : B -> C -> Prop)
  (f : A -> B) (g : A -> C) (l : list A) :
  (forall x, In x l -> R (f x) (g x)) -> Forall2 R (map f l) (map g l).
Proof.
  induction l as [|x l IH]; intros H; simpl; constructor.
  - apply H. now left.
  - apply IH. intros y Hy. apply H. now right.
Qed.

(** X12.  The index and the corpus of a completed run describe the same
    files in the same order.  The record of index [i] of the index is that
    of a file found whose read did not fail with a message: it holds the
    file's path relative to the working directory, the size, and the length
    and the hash of the text extracted from the file, with a null error;
    and the chunks [4 + 2 i] and [5 + 2 i] of the corpus are the section of
    that same file, the header printing the record's path and the body
    being that same text.  The corpus has two chunks per record after its
    four leading chunks, and its count line states the number of records. *)
Theorem index_matches_corpus (h : Host) (cfg : Config)
  (globbed : list jsstr) (order : list nat) (nowIndex nowCorpus : jsstr)
  (index : IndexFile) (corpus : list jsstr) :
  main h cfg globbed order nowIndex nowCorpus = Done index corpus ->
  (exists items : list Item,
    corpus = generateLLMTextStream h nowCorpus items (SRC_DIR cfg) /\
    Forall2 (fun p it =>
               pg_path p = Path.relative (cwd h) (it_path it) /\
               pg_size p = it_size it /\
               pg_textLength p = it_textLength it /\
               it_textLength it = len (it_text it) /\
               pg_hash p = sha256 h (it_text it) /\
               pg_error p = None)
            (pages index) items) /\
  length corpus = (4 + 2 * length (pages index))%nat /\
  nth_error corpus 2 =
    Some (lit "Files processed: "
            ++ toString (N.of_nat (length (pages index))) ++ NL ++ NL) /\
  (forall i p,
      nth_error (pages index) i = Some p ->
      exists g,
        In g (listHtmlFiles h globbed) /\
        ((exists html, readFile h g = inl html) \/ readFile h g = inr []) /\
        let extractedText := xr_text (extractTextFromHTML h g) in
        p = {| pg_path := Path.relative (cwd h) g;
               pg_size := match stat h g with Some s => s | None => 0 end;
               pg_textLength := len extractedText;
               pg_hash := sha256 h extractedText;
               pg_error := None |} /\
        nth_error corpus (4 + 2 * i) =
          Some (makeFileHeader (pg_path p) ++ NL) /\
        nth_error corpus (5 + 2 * i) =
          Some (match extractedText with
                | [] => lit "[No extractable text]" ++ NL ++ NL
                | _ :: _ => extractedText ++ NL ++ NL
                end)).
Proof.
  intros H. apply main_done_inv in H as [_ [_ [_ [_ [-> ->]]]]].
  set (successful :=
         successfulExtractions
           (sortExtracted h (map (processFile h) (listHtmlFiles h globbed)))).
  split.
  { exists (map toItem successful). split; [reflexivity|].
    simpl. apply Forall2_map_same. intros e He.
    pose proof (successful_error_null _ _ _ He) as Herr.
    apply successful_In in He as [He _].
    apply in_map_iff in He as [f [<- _]]. simpl.
    repeat split. exact Herr. }
  split.
  { unfold generateLLMTextStream. simpl pages.
    rewrite length_app, length_sections, !length_map. reflexivity. }
  split.
  { simpl. now rewrite !length_map. }
  intros i p Hp. simpl pages in Hp.
  rewrite nth_error_map in Hp.
  destruct (nth_error successful i) as [e|] eqn:Hi; [|discriminate].
  simpl in Hp. injection Hp as <-.
  pose proof (nth_error_In _ _ Hi) as He.
  pose proof (successful_error_null _ _ _ He) as Herr.
  apply successful_In in He as [He _].
  apply in_map_iff in He as [g [<- Hg]].
  exists g. split; [exact Hg|]. split.
  { rewrite processFile_error in Herr.
    destruct (readFile h g) as [html|[|c m]];
      [left; now exists html|now right|discriminate]. }
  intros extractedText.
  assert (Hitem : nth_error (map toItem successful) i
                  = Some (toItem (processFile h g)))
    by (now apply map_nth_error).
  destruct (sections_at h _ i Hitem) as [H0 H1].
  split.
  { unfold toPage. simpl. simpl in Herr. now rewrite Herr. }
  unfold generateLLMTextStream.
  change (4 + 2 * i)%nat with (S (S (S (S (2 * i))))).
  change (5 + 2 * i)%nat with (S (S (S (S (1 + 2 * i))))).
  split; [exact H0|exact H1].
Qed.

Lemma index_matches_corpus_witness :
  (exists items : list Item,
    SampleRun.corpus
    = generateLLMTextStream Sample.host (lit "T2") items
        (SRC_DIR Sample.config) /\
    Forall2 (fun p it =>
               pg_path p = Path.relative (cwd Sample.host) (it_path it) /\
               pg_size p = it_size it /\
               pg_textLength p = it_textLength it /\
               it_textLength it = len (it_text it) /\
               pg_hash p = sha256 Sample.host (it_text it) /\
               pg_error p = None)
            (pages SampleRun.index) items) /\
  length SampleRun.corpus
  = (4 + 2 * length (pages SampleRun.index))%nat /\
  nth_error SampleRun.corpus 2 =
    Some (lit "Files processed: "
            ++ toString (N.of_nat (length (pages SampleRun.index)))
            ++ NL ++ NL) /\
  (forall i p,
      nth_error (pages SampleRun.index) i = Some p ->
      exists g,
        In g (listHtmlFiles Sample.host [Sample.a_html; Sample.b_html]) /\
        ((exists html, readFile Sample.host g = inl html)
         \/ readFile Sample.host g = inr []) /\
        let extractedText := xr_text (extractTextFromHTML Sample.host g) in
        p = {| pg_path := Path.relative (cwd Sample.host) g;
               pg_size := match stat Sample.host g with
                          | Some s => s
                          | None => 0
                          end;
               pg_textLength := len extractedText;
               pg_hash := sha256 Sample.host extractedText;
               pg_error := None |} /\
        nth_error SampleRun.corpus (4 + 2 * i) =
          Some (makeFileHeader (pg_path p) ++ NL) /\
        nth_error SampleRun.corpus (5 + 2 * i) =
          Some (match extractedText with
                | [] => lit "[No extractable text]" ++ NL ++ NL
                | _ :: _ => extractedText ++ NL ++ NL
                end)).
Proof.
  apply (@index_matches_corpus Sample.host Sample.config
           [Sample.a_html; Sample.b_html] [0%nat; 1%nat]
           (lit "T1") (lit "T2")).
  vm_compute. reflexivity.
Defined.

Lemma StronglySorted_filter (A : Type) (R : A -> A -> Prop)
  (p : A -> bool) (l : list A) :
  StronglySorted R l -> StronglySorted R (filter p l).
Proof.
  induction 1 as [|x l Hl IH Hx]; simpl; [constructor|].
  destruct (p x); [|exact IH]. constructor; [exact IH|].
  apply Forall_forall. intros y Hy. apply filter_In in Hy as [Hy _].
  rewrite Forall_forall in Hx. now apply Hx.
Qed.

Lemma StronglySorted_map (A B : Type) (R : B -> B -> Prop) (f : A -> B)
  (l : list A) :
  StronglySorted (fun a b => R (f a) (f b)) l -> StronglySorted R (map f l).
Proof.
  induction 1 as [|x l Hl IH Hx]; simpl; constructor; [exact IH|].
  apply Forall_forall. intros y Hy. apply in_map_iff in Hy as [a [<- Ha]].
  rewrite Forall_forall in Hx. now apply Hx.
Qed.

(** X13.  When the comparison of the host's locale orders, the records of the
    index of a completed run are in its order by their paths: dropping the
    failed results does not disturb the sort. *)
Theorem index_sorted_by_path (h : Host) (cfg : Config)
  (globbed : list jsstr) (order : list nat) (nowIndex nowCorpus : jsstr)
  (index : IndexFile) (corpus : list jsstr) :
  consistentComparator (localeCompare h) ->
  main h cfg globbed order nowIndex nowCorpus = Done index corpus ->
  sortedBy (localeCompare h) (map pg_path (pages index)).
Proof.
  intros Hcmp H. apply main_done_inv in H as [_ [_ [_ [_ [-> _]]]]].
  simpl. rewrite map_map. simpl.
  apply (@StronglySorted_map Extracted jsstr
           (fun a b => (localeCompare h a b <= 0)%Z) rel).
  apply StronglySorted_filter.
  apply (@sortWith_sorted Extracted
           (fun a b => localeCompare h (rel a) (rel b))).
  destruct Hcmp as [Ht Htr]. split.
  - intros a b. apply Ht.
  - intros a b c. apply Htr.
Qed.

Lemma index_sorted_by_path_witness :
  sortedBy (localeCompare Sample.host) (map pg_path (pages SampleRun.index)).
Proof.
  apply (@index_sorted_by_path Sample.host Sample.config
           [Sample.a_html; Sample.b_html] [0%nat; 1%nat]
           (lit "T1") (lit "T2") SampleRun.index SampleRun.corpus).
  - exact defaultCompare_consistent.
  - vm_compute. reflexivity.
Defined.

(** Dropping results keeps their paths distinct. *)
Lemma successful_paths_distinct (sorted : list Extracted) :
  NoDup (map path sorted) ->
  NoDup (map path (successfulExtractions sorted)).
Proof.
  unfold successfulExtractions.
  induction sorted as [|e sorted IH]; intros Hnd; simpl; [constructor|].
  apply NoDup_cons_iff in Hnd as [Hfresh Hrest].
  destruct (noError e); simpl; [|now apply IH].
  apply NoDup_cons; [|now apply IH].
  intros Hin. apply Hfresh. apply in_map_iff in Hin as [e' [He' Hin]].
  apply filter_In in Hin as [Hin _]. rewrite <- He'. now apply in_map.
Qed.

(** X14.  Whatever the number of failures, the items of the corpus of a completed
    run are, each once, exactly the files found whose task reported no
    error. *)
Theorem corpus_holds_the_successes (h : Host) (cfg : Config)
  (globbed : list jsstr) (order : list nat) (nowIndex nowCorpus : jsstr)
  (index : IndexFile) (corpus : list jsstr) :
  main h cfg globbed order nowIndex nowCorpus = Done index corpus ->
  exists items : list Item,
    corpus = generateLLMTextStream h nowCorpus items (SRC_DIR cfg) /\
    NoDup (map it_path items) /\
    (forall f, In f (map it_path items) <->
               In f (listHtmlFiles h globbed) /\
               error (processFile h f) = None) /\
    (forall it, In it items -> it = toItem (processFile h (it_path it))).
Proof.
  intros H. apply main_done_inv in H as [_ [_ [_ [_ [_ ->]]]]].
  set (files := listHtmlFiles h globbed).
  set (successful :=
         successfulExtractions (sortExtracted h (map (processFile h) files))).
  exists (map toItem successful). split; [reflexivity|].
  rewrite map_map. simpl. split; [|split].
  - unfold successful.
    apply successful_paths_distinct.
    eapply Permutation_NoDup.
    + apply Permutation_map. apply sortWith_perm.
    + rewrite map_path_processFile. apply listHtmlFiles_NoDup.
  - intros f. rewrite in_map_iff. split.
    + intros [e [<- He]].
      pose proof (successful_error_null _ _ _ He) as Herr.
      apply successful_In in He as [He _].
      apply in_map_iff in He as [g [<- Hg]]. simpl. split; [exact Hg|].
      exact Herr.
    + intros [Hf Herr]. exists (processFile h f). split; [reflexivity|].
      apply successful_In. split; [now apply in_map|].
      unfold noError. simpl. now rewrite Herr.
  - intros it Hit. apply in_map_iff in Hit as [e [<- He]].
    apply successful_In in He as [He _].
    apply in_map_iff in He as [g [<- _]]. reflexivity.
Qed.

Lemma corpus_holds_the_successes_witness :
  exists items : list Item,
    SampleRun.corpus
    = generateLLMTextStream Sample.host (lit "T2") items
        (SRC_DIR Sample.config) /\
    NoDup (map it_path items) /\
    (forall f, In f (map it_path items) <->
               In f (listHtmlFiles Sample.host [Sample.a_html; Sample.b_html])
               /\ error (processFile Sample.host f) = None) /\
    (forall it, In it items ->
                it = toItem (processFile Sample.host (it_path it))).
Proof.
  apply (@corpus_holds_the_successes Sample.host Sample.config
           [Sample.a_html; Sample.b_html] [0%nat; 1%nat]
           (lit "T1") (lit "T2") SampleRun.index).
  vm_compute. reflexivity.
Defined.

Lemma filter_none (A : Type) (p : A -> bool) (l : list A) :
  (forall x, In x l -> p x = false) -> filter p l = [].
Proof.
  induction l as [|x l IH]; intros H; simpl; [reflexivity|].
  rewrite (H x (or_introl eq_refl)). apply IH.
  intros y Hy. apply H. now right.
Qed.

(** X15.  A run in which every file found fails to be read still completes: the
    index has no record, and the corpus is its three header lines followed
    by the sentence that no files were processed, without any section. *)
Theorem all_reads_failed (h : Host) (cfg : Config) (globbed : list jsstr)
  (order : list nat) (nowIndex nowCorpus : jsstr) :
  pathExists h (SRC_DIR cfg) = true ->
  listHtmlFiles h globbed <> [] ->
  concurrency cfg <> 0 ->
  Permutation (seq 0 (length (listHtmlFiles h globbed))) order ->
  (forall f, In f (listHtmlFiles h globbed) ->
             exists message, message <> [] /\ readFile h f = inr message) ->
  main h cfg globbed order nowIndex nowCorpus =
  Done {| generatedAt := nowIndex; source := SRC_DIR cfg; pages := [] |}
       [ lit "Generated: " ++ nowCorpus ++ NL;
         lit "Source directory: " ++ SRC_DIR cfg ++ NL;
         lit "Files processed: 0" ++ NL ++ NL;
         lit "No files were processed." ++ NL ].
Proof.
  intros Hsrc Hfiles Hk Horder Hfail.
  rewrite main_completes by assumption.
  assert (E : successfulExtractions
                (sortExtracted h
                   (map (processFile h) (listHtmlFiles h globbed))) = []).
  { unfold successfulExtractions. apply filter_none. intros e He.
    eapply Permutation_in in He; [|symmetry; apply sortWith_perm].
    apply in_map_iff in He as [f [<- Hf]].
    destruct (Hfail f Hf) as [message [Hm Hread]].
    now apply (noError_read_failed h f Hread). }
  rewrite E. reflexivity.
Qed.

Lemma all_reads_failed_witness :
  main SampleRun.hostUnreadable Sample.config [Sample.a_html; Sample.b_html]
       [1%nat; 0%nat] (lit "T1") (lit "T2") =
  Done {| generatedAt := lit "T1"; source := SRC_DIR Sample.config;
          pages := [] |}
       [ lit "Generated: " ++ lit "T2" ++ NL;
         lit "Source directory: " ++ SRC_DIR Sample.config ++ NL;
         lit "Files processed: 0" ++ NL ++ NL;
         lit "No files were processed." ++ NL ].
Proof.
  apply (@all_reads_failed SampleRun.hostUnreadable Sample.config
           [Sample.a_html; Sample.b_html] [1%nat; 0%nat]).
  - reflexivity.
  - discriminate.
  - discriminate.
  - vm_compute. apply perm_swap.
  - intros f _. exists Sample.denied. split; [discriminate|reflexivity].
Defined.

(** ** The sections of the corpus *)

Lemma nth_error_sections (h : Host) (items : list Item) (i : nat)
  (it : Item) :
  nth_error items i = Some it ->
  nth_error (flat_map (sectionChunks h) items) (2 * i)
    = nth_error (sectionChunks h it) 0 /\
  nth_error (flat_map (sectionChunks h) items) (1 + 2 * i)
    = nth_error (sectionChunks h it) 1.
Proof.
  revert i; induction items as [|x items IH]; intros [|i] H;
    simpl in H; try discriminate.
  - injection H as ->. split; reflexivity.
  - destruct (IH i H) as [H0 H1].
    replace (2 * S i)%nat with (S (S (2 * i))) by lia.
    replace (1 + S (S (2 * i)))%nat with (S (S (1 + 2 * i))) by lia.
    split; [exact H0|exact H1].
Qed.

(** X16.  The section of the item of index [i] is made of the chunks of index
    [4 + 2 i] and [5 + 2 i] of the corpus: the header with the item's path
    relative to the working directory, then the item's text followed by a
    blank line, or the no-text sentence when the text is empty. *)
Theorem corpus_section_position (h : Host) (now srcDir : jsstr)
  (items : list Item) (i : nat) (it : Item) :
  nth_error items i = Some it ->
  nth_error (generateLLMTextStream h now items srcDir) (4 + 2 * i)
    = Some (makeFileHeader (Path.relative (cwd h) (it_path it)) ++ NL) /\
  nth_error (generateLLMTextStream h now items srcDir) (5 + 2 * i)
    = Some (match it_text it with
            | [] => lit "[No extractable text]" ++ NL ++ NL
            | _ :: _ => it_text it ++ NL ++ NL
            end).
Proof.
  intros H. destruct (nth_error_sections h items i H) as [H0 H1].
  unfold generateLLMTextStream.
  change (4 + 2 * i)%nat with (S (S (S (S (2 * i))))).
  change (5 + 2 * i)%nat with (S (S (S (S (1 + 2 * i))))).
  simpl nth_error at 1. simpl nth_error at 2.
  split.
  - simpl in H0. rewrite H0. reflexivity.
  - simpl in H1. simpl. rewrite H1. f_equal.
    destruct (it_text it); reflexivity.
Qed.

Lemma corpus_section_position_witness :
  nth_error SampleRun.corpus (4 + 2 * 0)
    = Some (makeFileHeader (lit "a.html") ++ NL) /\
  nth_error SampleRun.corpus (5 + 2 * 0)
    = Some (Sample.helloText ++ NL ++ NL).
Proof.
  apply (@corpus_section_position Sample.host (lit "T2") (lit "/site")
           [toItem (processFile Sample.host Sample.a_html)] 0%nat
           (toItem (processFile Sample.host Sample.a_html))).
  reflexivity.
Defined.

(** ** The report page *)

Lemma escapeLessThan_In (s : jsstr) (x : code_unit) :
  In x (escapeLessThan s) -> x <> LESS_THAN.
Proof.
  unfold escapeLessThan. rewrite in_flat_map. intros [c [_ H]].
  destruct (c =? LESS_THAN) eqn:E.
  - simpl in H. intuition (subst; discriminate).
  - simpl in H. destruct H as [<-|[]]. now apply N.eqb_neq.
Qed.

Lemma escapeLessThan_length (s : jsstr) :
  (length s <= length (escapeLessThan s) <= 4 * length s)%nat.
Proof.
  induction s as [|c s IH]; simpl; [lia|].
  rewrite length_app. destruct (c =? LESS_THAN); simpl; lia.
Qed.

Lemma escapeLessThan_id (s : jsstr) :
  ~ In LESS_THAN s -> escapeLessThan s = s.
Proof.
  induction s as [|c s IH]; simpl; [reflexivity|]. intros H.
  destruct (c =? LESS_THAN) eqn:E.
  - apply N.eqb_eq in E. exfalso. apply H. now left.
  - simpl. f_equal. apply IH. intros Hin. apply H. now right.
Qed.

Lemma preview_bounds (t : jsstr) :
  t <> [] ->
  escapeLessThan (firstn 2000 t) <> [] /\
  (length (escapeLessThan (firstn 2000 t)) <= 4 * 2000)%nat.
Proof.
  intros Ht.
  pose proof (escapeLessThan_length (firstn 2000 t)) as [Hlo Hhi].
  rewrite length_firstn in Hlo, Hhi. split.
  - intros E. rewrite E in Hlo. destruct t as [|c t]; [congruence|].
    cbn [length] in Hlo. lia.
  - lia.
Qed.

(** X17.  The preview of an item never holds a less-than sign and is never empty
    nor longer than four times 2000 code units (2000 before the escaping,
    each less-than sign becoming four code units); the path shown with it
    holds no backslash. *)
Theorem report_preview_safe (h : Host) (it : Item) :
  ~ In LESS_THAN (uiPreview it) /\
  uiPreview it <> [] /\
  (length (uiPreview it) <= 4 * 2000)%nat /\
  ~ In BACKSLASH (uiRel h it).
Proof.
  assert (Ht : (if truthy (it_text it) then it_text it else NO_TEXT) <> []).
  { destruct (it_text it); simpl; discriminate. }
  split; [|split; [|split]].
  - intros H. now apply escapeLessThan_In in H.
  - apply (preview_bounds Ht).
  - apply (preview_bounds Ht).
  - unfold uiRel, forwardSlashes. rewrite in_map_iff. intros [c [Hc _]].
    destruct (c =? BACKSLASH) eqn:E; [discriminate|].
    apply N.eqb_neq in E. congruence.
Qed.

(** X18.  The preview of a text without a less-than sign is the text itself, cut
    after 2000 code units, and the no-text sentence when the text is
    empty. *)
Theorem report_preview_plain (it : Item) :
  ~ In LESS_THAN (it_text it) ->
  uiPreview it =
  match it_text it with
  | [] => lit "[No extractable text]"
  | _ :: _ => firstn 2000 (it_text it)
  end.
Proof.
  intros H. unfold uiPreview.
  destruct (it_text it) as [|c t] eqn:E.
  - reflexivity.
  - change (truthy (c :: t)) with true. cbv iota.
    apply escapeLessThan_id. intros Hin. apply H.
    rewrite <- (firstn_skipn 2000 (c :: t)). apply in_or_app. now left.
Qed.

Lemma report_preview_plain_witness :
  uiPreview (toItem (processFile Sample.host Sample.a_html))
  = firstn 2000 Sample.helloText.
Proof.
  apply (@report_preview_plain
           (toItem (processFile Sample.host Sample.a_html))).
  vm_compute. intuition discriminate.
Defined.

Lemma lit_inj (a b : string) : lit a = lit b -> a = b.
Proof.
  unfold lit. intros H.
  rewrite <- (string_of_list_ascii_of_string a).
  rewrite <- (string_of_list_ascii_of_string b). f_equal.
  revert H. generalize (list_ascii_of_string a) (list_ascii_of_string b).
  induction l as [|x l IH]; intros [|y l'] H; simpl in H;
    try discriminate; [reflexivity|].
  injection H as Hx Hl. f_equal; [|now apply IH].
  rewrite <- (ascii_N_embedding x), <- (ascii_N_embedding y). now rewrite Hx.
Qed.

Lemma toString_inj (i j : N) : toString i = toString j -> i = j.
Proof.
  unfold toString. intros H. apply lit_inj in H.
  apply DecimalN.Unsigned.to_uint_inj.
  pose proof (NilEmpty.usu (N.to_uint i)) as Hi.
  rewrite H, NilEmpty.usu in Hi. now injection Hi.
Qed.

Lemma itemsHtmlFrom_nth (h : Host) (items : list Item) (start : N)
  (k : nat) (it : Item) :
  nth_error items k = Some it ->
  exists before after,
    itemsHtmlFrom h start items
    = before ++ uiSection h (start + N.of_nat k) it ++ after.
Proof.
  revert start k; induction items as [|x items IH]; intros start [|k] H;
    simpl in H; try discriminate.
  - injection H as ->. exists [], (itemsHtmlFrom h (start + 1) items).
    change (N.of_nat 0) with 0. rewrite N.add_0_r. reflexivity.
  - destruct (IH (start + 1) k H) as [before [after E]].
    exists (uiSection h start x ++ before), after.
    change (itemsHtmlFrom h start (x :: items))
      with (uiSection h start x ++ itemsHtmlFrom h (start + 1) items).
    rewrite E, <- app_assoc.
    replace (start + 1 + N.of_nat k) with (start + N.of_nat (S k)) by lia.
    reflexivity.
Qed.

(** X19.  The section of the item of index [k] carries the element id [file-k],
    and no other index gives that id: the toggles of the report address
    distinct elements. *)
Theorem report_sections_numbered (h : Host) (items : list Item) (k : nat)
  (it : Item) :
  nth_error items k = Some it ->
  (exists before after,
      itemsHtml h items = before ++ uiSection h (N.of_nat k) it ++ after) /\
  (forall j, safeId j = safeId (N.of_nat k) <-> j = N.of_nat k).
Proof.
  intros H. split.
  - apply (itemsHtmlFrom_nth h items 0 k H).
  - intros j. split; [|now intros ->].
    unfold safeId. intros E. apply app_inv_head in E. now apply toString_inj.
Qed.

Lemma report_sections_numbered_witness :
  (exists before after,
      itemsHtml Sample.host
        [toItem (processFile Sample.host Sample.a_html);
         toItem (processFile Sample.host Sample.B_html)]
      = before
        ++ uiSection Sample.host (N.of_nat 1)
             (toItem (processFile Sample.host Sample.B_html))
        ++ after) /\
  (forall j, safeId j = safeId (N.of_nat 1) <-> j = N.of_nat 1).
Proof.
  apply (@report_sections_numbered Sample.host
           [toItem (processFile Sample.host Sample.a_html);
            toItem (processFile Sample.host Sample.B_html)] 1%nat).
  reflexivity.
Defined.
